(** * WaterManager: progressive texture loading and render-target set-up

    A shallow embedding of [source/renderer/WaterManager.cpp]:
    the constructor, [WaterManager::LoadWaterTextures] and
    [WaterManager::UnloadWaterTextures], together with the part of their
    environment they act on (the texture library, the GL texture objects,
    the renderer's height, the clock and the log).

    The member function is written in a small state monad with early
    return, one constructor of [Ret] per [return] site of the C++ code. *)

From Stdlib Require Import ZArith QArith String Ascii List Lia DecimalString.
From stdpp Require Import base list gmap.

Local Open Scope Z_scope.

(** ** Handles and GL objects *)

(** [Handle] of lib/res: a signed integer; values [<= 0] denote failure
    (the code tests [ht <= 0]). *)
Definition Handle := Z.

(** The C++ [int]: 32 bits, two's complement.  [int_of z] is the [int]
    that holds [z]: [z] itself when it is in range, and [z] reduced
    modulo [2 ^ 32] into the range otherwise. *)
Definition int_of (z : Z) : Z :=
  (z + 2147483648) mod 4294967296 - 2147483648.

Definition GLuint := Z.

Inductive GLenum :=
| GL_TEXTURE_2D
| GL_RGB
| GL_UNSIGNED_BYTE
| GL_TEXTURE_MIN_FILTER
| GL_TEXTURE_MAG_FILTER
| GL_TEXTURE_WRAP_S
| GL_TEXTURE_WRAP_T
| GL_NEAREST
| GL_LINEAR
| GL_NEAREST_MIPMAP_LINEAR
| GL_REPEAT
| GL_CLAMP_TO_EDGE.

(** The image of a texture object as given to [glTexImage2D]:
    level, internal format, width, height, border, format, type and the
    client pointer the texels are read from ([0] is the null pointer: no
    texels are supplied). *)
Record TexImage := mkTexImage {
  img_level : Z;
  img_internalformat : GLenum;
  img_width : Z;
  img_height : Z;
  img_border : Z;
  img_format : GLenum;
  img_type : GLenum;
  img_pixels : Z
}.

Record Texture := mkTexture {
  tex_image : option TexImage;
  tex_min_filter : GLenum;
  tex_mag_filter : GLenum;
  tex_wrap_s : GLenum;
  tex_wrap_t : GLenum
}.

(** A texture object as GL creates it at its first bind. *)
Definition default_texture : Texture :=
  {| tex_image := None;
     tex_min_filter := GL_NEAREST_MIPMAP_LINEAR;
     tex_mag_filter := GL_LINEAR;
     tex_wrap_s := GL_REPEAT;
     tex_wrap_t := GL_REPEAT |}.

(** The GL context as far as this file uses it: the number of texture
    names generated so far, the texture bound to [GL_TEXTURE_2D], and the
    texture objects. *)
Record GLState := mkGL {
  gl_generated : Z;
  gl_bound : GLuint;
  gl_textures : gmap Z Texture
}.

Definition gl_initial : GLState :=
  {| gl_generated := 0; gl_bound := 0; gl_textures := ∅ |}.

(** [glGenTextures(1, &name)]: the next unused name; names start at 1. *)
Definition gl_GenTextures (g : GLState) : GLuint * GLState :=
  (gl_generated g + 1,
   {| gl_generated := gl_generated g + 1;
      gl_bound := gl_bound g;
      gl_textures := gl_textures g |}).

(** [glBindTexture(GL_TEXTURE_2D, name)]: the first bind of a name creates
    its object. *)
Definition gl_BindTexture (name : GLuint) (g : GLState) : GLState :=
  {| gl_generated := gl_generated g;
     gl_bound := name;
     gl_textures :=
       match gl_textures g !! name with
       | Some _ => gl_textures g
       | None => <[name := default_texture]> (gl_textures g)
       end |}.

Definition set_image (i : TexImage) (t : Texture) : Texture :=
  {| tex_image := Some i;
     tex_min_filter := tex_min_filter t;
     tex_mag_filter := tex_mag_filter t;
     tex_wrap_s := tex_wrap_s t;
     tex_wrap_t := tex_wrap_t t |}.

Definition set_param (pname value : GLenum) (t : Texture) : Texture :=
  match pname with
  | GL_TEXTURE_MIN_FILTER =>
      {| tex_image := tex_image t; tex_min_filter := value;
         tex_mag_filter := tex_mag_filter t;
         tex_wrap_s := tex_wrap_s t; tex_wrap_t := tex_wrap_t t |}
  | GL_TEXTURE_MAG_FILTER =>
      {| tex_image := tex_image t; tex_min_filter := tex_min_filter t;
         tex_mag_filter := value;
         tex_wrap_s := tex_wrap_s t; tex_wrap_t := tex_wrap_t t |}
  | GL_TEXTURE_WRAP_S =>
      {| tex_image := tex_image t; tex_min_filter := tex_min_filter t;
         tex_mag_filter := tex_mag_filter t;
         tex_wrap_s := value; tex_wrap_t := tex_wrap_t t |}
  | GL_TEXTURE_WRAP_T =>
      {| tex_image := tex_image t; tex_min_filter := tex_min_filter t;
         tex_mag_filter := tex_mag_filter t;
         tex_wrap_s := tex_wrap_s t; tex_wrap_t := value |}
  | _ => t
  end.

Definition gl_on_bound (f : Texture -> Texture) (g : GLState) : GLState :=
  {| gl_generated := gl_generated g;
     gl_bound := gl_bound g;
     gl_textures := alter f (gl_bound g) (gl_textures g) |}.

(** [glTexImage2D(GL_TEXTURE_2D, ...)] on the bound texture. *)
Definition gl_TexImage2D (i : TexImage) : GLState -> GLState :=
  gl_on_bound (set_image i).

(** [glTexParameteri(GL_TEXTURE_2D, pname, value)] on the bound texture. *)
Definition gl_TexParameteri (pname value : GLenum) : GLState -> GLState :=
  gl_on_bound (set_param pname value).

(** ** The object *)

(** The two texture classes of the manager: the diffuse frames
    ([m_WaterTexture]) and the normal maps ([m_NormalMap]). *)
Inductive TexClass := Diffuse | Normal.

(** The members of [WaterManager] that loading and unloading read or
    write.  The arrays are lists of their declared size, so that
    [ARRAY_SIZE] is [length]; the colour, speed and wave settings of the
    constructor take no part in loading and are left out. *)
Record WaterManager := mkWM {
  m_RenderWater : bool;
  m_WaterTexture : list Handle;
  m_NormalMap : list Handle;
  cur_loading_water_tex : nat;
  cur_loading_normal_map : nat;
  m_ReflectionTexture : GLuint;
  m_RefractionTexture : GLuint;
  m_ReflectionTextureSize : Z;
  m_RefractionTextureSize : Z
}.

(** [WaterManager::WaterManager()]; the array sizes come from the class
    declaration and are parameters here. *)
Definition WaterManager_ctor (n_tex n_norm : nat) : WaterManager :=
  {| m_RenderWater := false;
     m_WaterTexture := replicate n_tex 0;
     m_NormalMap := replicate n_norm 0;
     cur_loading_water_tex := 0;
     cur_loading_normal_map := 0;
     m_ReflectionTexture := 0;
     m_RefractionTexture := 0;
     m_ReflectionTextureSize := 0;
     m_RefractionTextureSize := 0 |}.

Definition slots (k : TexClass) (w : WaterManager) : list Handle :=
  match k with
  | Diffuse => m_WaterTexture w
  | Normal => m_NormalMap w
  end.

Definition cursor (k : TexClass) (w : WaterManager) : nat :=
  match k with
  | Diffuse => cur_loading_water_tex w
  | Normal => cur_loading_normal_map w
  end.

(** [ARRAY_SIZE] of the class's array. *)
Definition capacity (k : TexClass) (w : WaterManager) : nat :=
  length (slots k w).

Definition set_slot (k : TexClass) (i : nat) (h : Handle)
    (w : WaterManager) : WaterManager :=
  match k with
  | Diffuse =>
      {| m_RenderWater := m_RenderWater w;
         m_WaterTexture := <[i := h]> (m_WaterTexture w);
         m_NormalMap := m_NormalMap w;
         cur_loading_water_tex := cur_loading_water_tex w;
         cur_loading_normal_map := cur_loading_normal_map w;
         m_ReflectionTexture := m_ReflectionTexture w;
         m_RefractionTexture := m_RefractionTexture w;
         m_ReflectionTextureSize := m_ReflectionTextureSize w;
         m_RefractionTextureSize := m_RefractionTextureSize w |}
  | Normal =>
      {| m_RenderWater := m_RenderWater w;
         m_WaterTexture := m_WaterTexture w;
         m_NormalMap := <[i := h]> (m_NormalMap w);
         cur_loading_water_tex := cur_loading_water_tex w;
         cur_loading_normal_map := cur_loading_normal_map w;
         m_ReflectionTexture := m_ReflectionTexture w;
         m_RefractionTexture := m_RefractionTexture w;
         m_ReflectionTextureSize := m_ReflectionTextureSize w;
         m_RefractionTextureSize := m_RefractionTextureSize w |}
  end.

Definition set_cursor (k : TexClass) (c : nat)
    (w : WaterManager) : WaterManager :=
  match k with
  | Diffuse =>
      {| m_RenderWater := m_RenderWater w;
         m_WaterTexture := m_WaterTexture w;
         m_NormalMap := m_NormalMap w;
         cur_loading_water_tex := c;
         cur_loading_normal_map := cur_loading_normal_map w;
         m_ReflectionTexture := m_ReflectionTexture w;
         m_RefractionTexture := m_RefractionTexture w;
         m_ReflectionTextureSize := m_ReflectionTextureSize w;
         m_RefractionTextureSize := m_RefractionTextureSize w |}
  | Normal =>
      {| m_RenderWater := m_RenderWater w;
         m_WaterTexture := m_WaterTexture w;
         m_NormalMap := m_NormalMap w;
         cur_loading_water_tex := cur_loading_water_tex w;
         cur_loading_normal_map := c;
         m_ReflectionTexture := m_ReflectionTexture w;
         m_RefractionTexture := m_RefractionTexture w;
         m_ReflectionTextureSize := m_ReflectionTextureSize w;
         m_RefractionTextureSize := m_RefractionTextureSize w |}
  end.

#[global] Instance TexClass_eq_dec : EqDecision TexClass.
Proof. solve_decision. Defined.

(** ** Shape of the two arrays *)

(** The slots below a cursor hold handles of loaded textures, the slots
    above it are empty, and the slot at the cursor is empty or holds the
    handle of a texture whose upload failed; nothing of the normal maps
    is touched before the diffuse textures are complete. *)
Record pool_ok (w : WaterManager) : Prop := {
  pool_cursor : forall k, (cursor k w <= capacity k w)%nat;
  pool_filled : forall k i h,
    (i < cursor k w)%nat -> slots k w !! i = Some h -> 0 < h;
  pool_empty : forall k i h,
    (cursor k w < i)%nat -> slots k w !! i = Some h -> h = 0;
  pool_resume : forall k h, slots k w !! cursor k w = Some h -> 0 <= h;
  pool_order :
    (cursor Diffuse w < capacity Diffuse w)%nat ->
    cursor Normal w = 0%nat /\
    forall i h, slots Normal w !! i = Some h -> h = 0
}.

(** The number of slots of an array that hold a handle. *)
Definition populated (l : list Handle) : nat :=
  length (List.filter (fun h => negb (h =? 0)) l).

(** ** The environment *)

(** The texture library of lib/res/graphics ([ogl_tex_load],
    [ogl_tex_upload], [ogl_tex_free]) over its own state [G].  None of
    them is defined in this file of the repository; the loader is
    verified for every implementation. *)
Class Host (G : Type) := {
  ogl_tex_load : string -> G -> Handle * G;
  ogl_tex_upload : Handle -> G -> Z * G;
  ogl_tex_free : Handle -> G -> G
}.

(** What the manager asks of its environment, in the order it asks.  A
    load or upload records the class and the cursor value it was issued
    for. *)
Inductive Event :=
| EvLoad (k : TexClass) (i : nat) (filename : string) (ht : Handle)
| EvLog (filename : string)
| EvUpload (k : TexClass) (i : nat) (ht : Handle) (status : Z)
| EvFree (h : Handle).

(** The whole state a call can read or write: the object, the texture
    library, the GL context, [g_Renderer.GetHeight()], the buffer size
    [PATH_MAX], the clock (the value of the [n]-th call of [get_time]
    and the number of calls made so far) and the trace of requests.
    Times are rationals, in seconds, in place of the doubles of the
    source; the clock may give any sequence of readings. *)
Record Sys (G : Type) := mkSys {
  this : WaterManager;
  host : G;
  gl : GLState;
  g_Renderer_Height : Z;
  PATH_MAX : nat;
  clock : nat -> Q;
  ticks : nat;
  trace : list Event
}.

Arguments mkSys {G}.
Arguments this {G}.
Arguments host {G}.
Arguments gl {G}.
Arguments g_Renderer_Height {G}.
Arguments PATH_MAX {G}.
Arguments clock {G}.
Arguments ticks {G}.
Arguments trace {G}.

Definition with_this {G} (w : WaterManager) (s : Sys G) : Sys G :=
  mkSys w (host s) (gl s) (g_Renderer_Height s) (PATH_MAX s)
        (clock s) (ticks s) (trace s).

Definition with_host {G} (g : G) (s : Sys G) : Sys G :=
  mkSys (this s) g (gl s) (g_Renderer_Height s) (PATH_MAX s)
        (clock s) (ticks s) (trace s).

Definition with_gl {G} (g : GLState) (s : Sys G) : Sys G :=
  mkSys (this s) (host s) g (g_Renderer_Height s) (PATH_MAX s)
        (clock s) (ticks s) (trace s).

Definition with_clock {G} (c : nat -> Q) (s : Sys G) : Sys G :=
  mkSys (this s) (host s) (gl s) (g_Renderer_Height s) (PATH_MAX s)
        c (ticks s) (trace s).

Definition with_ticks {G} (n : nat) (s : Sys G) : Sys G :=
  mkSys (this s) (host s) (gl s) (g_Renderer_Height s) (PATH_MAX s)
        (clock s) n (trace s).

Definition emit {G} (e : Event) (s : Sys G) : Sys G :=
  mkSys (this s) (host s) (gl s) (g_Renderer_Height s) (PATH_MAX s)
        (clock s) (ticks s) (trace s ++ [e]).

(** ** Control flow *)

(** One constructor per [return] of [LoadWaterTextures]: [return ht] after
    a failed load, the return inside [RETURN_ERR], the return inside
    [LDR_CHECK_TIMEOUT] (with the macro's two arguments) and the final
    [return 0]. *)
Inductive Ret :=
| RetLoadFailed (ht : Handle)
| RetErr (err : Z)
| RetTimeout (completed total : nat)
| RetOk.

(** The [int] the caller receives from the two [return] statements
    written in the function: [return ht] (lines 105 and 122) hands back
    the handle of the failed load, converted to [int], and the last line
    is [return 0].  So a failed load whose handle is the null handle 0
    gives the caller the same value as a call that reached the end.  The
    values handed back inside [RETURN_ERR] and [LDR_CHECK_TIMEOUT] are
    computed by those macros, which are not in this file. *)
Definition return_value (r : Ret) : option Z :=
  match r with
  | RetLoadFailed ht => Some (int_of ht)
  | RetOk => Some 0
  | RetErr _ | RetTimeout _ _ => None
  end.

(** A statement either falls through to the next one or leaves the
    function. *)
Inductive Flow (S A : Type) :=
| Next (a : A) (s : S)
| Exit (r : Ret) (s : S).

Arguments Next {S A}.
Arguments Exit {S A}.

Definition M (S A : Type) := S -> Flow S A.

Definition ret {S A} (a : A) : M S A := fun s => Next a s.

Definition bind {S A B} (m : M S A) (f : A -> M S B) : M S B :=
  fun s =>
    match m s with
    | Next a s' => f a s'
    | Exit r s' => Exit r s'
    end.

Definition return_ {S A} (r : Ret) : M S A := fun s => Exit r s.

Definition gets {S A} (f : S -> A) : M S A := fun s => Next (f s) s.

Definition modify {S} (f : S -> S) : M S unit := fun s => Next tt (f s).

Declare Scope flow_scope.
Delimit Scope flow_scope with flow.
Notation "x <- m ;; k" := (bind m (fun x => k))
  (at level 100, m at next level, right associativity) : flow_scope.
Notation "m ;; k" := (bind m (fun _ => k))
  (at level 100, right associativity) : flow_scope.
Local Open Scope flow_scope.

(** ** File names *)

(** [%02d]: decimal, padded with zeros on the left to at least two
    characters. *)
Definition fmt_02d (n : nat) : string :=
  let s := NilEmpty.string_of_uint (Nat.to_uint n) in
  if (String.length s <? 2)%nat then String.append "0" s else s.

(** The two format strings of the loader, applied to their arguments. *)
Definition diffuse_fmt (water_type : string) (n : nat) : string :=
  String.append "art/textures/animated/water/"
    (String.append water_type
       (String.append "/diffuse" (String.append (fmt_02d n) ".dds"))).

Definition normal_fmt (water_type : string) (n : nat) : string :=
  String.append "art/textures/animated/water/"
    (String.append water_type
       (String.append "/normal" (String.append (fmt_02d n) ".dds"))).

(** [snprintf(buf, size, ...)] leaves at most [size - 1] characters of the
    formatted text in [buf]. *)
Definition snprintf (size : nat) (formatted : string) : string :=
  substring 0 (size - 1) formatted.

(** [static const char* const water_type = "default"]. *)
Definition water_type : string := "default".

Definition tex_fmt (k : TexClass) : string -> nat -> string :=
  match k with
  | Diffuse => diffuse_fmt
  | Normal => normal_fmt
  end.

(** ** Helpers of other files *)

(** Modelled from the spec: [RoundUpToPowerOf2] (maths/MathUtil.h) is
    called by the loader but defined outside this file; the spec gives
    its result as "the smallest power of two p that is >= displayHeight",
    which is [2 ^ Z.log2_up x] ([1] for every [x <= 1]).  It is the
    mathematical function; the loader stores its result in an [int]
    (see [target_size]), which holds it for heights up to [2 ^ 30]
    (see [RoundUpToPowerOf2_fits_int]). *)
Definition RoundUpToPowerOf2 (x : Z) : Z := 2 ^ Z.log2_up x.

(** Modelled from the spec: the macro [RETURN_ERR] (lib) is used by the
    loader but defined outside this file; per the spec an upload failure
    is returned to the caller at once.  A status is a failure when it is
    negative, the sign convention of the library's status codes (a
    failed load is a handle [<= 0]). *)
Definition RETURN_ERR {S} (expression : M S Z) : M S unit :=
  err <- expression ;;
  if err <? 0 then return_ (RetErr err) else ret tt.

Section Loader.

Context {G : Type} {HostG : Host G}.

(** *** Calls into the environment *)

Definition get_time : M (Sys G) Q :=
  fun s => Next (clock s (ticks s)) (with_ticks (S (ticks s)) s).

Definition call_ogl_tex_load (k : TexClass) (i : nat) (filename : string)
    : M (Sys G) Handle :=
  fun s =>
    let (ht, g) := ogl_tex_load filename (host s) in
    Next ht (emit (EvLoad k i filename ht) (with_host g s)).

Definition call_ogl_tex_upload (k : TexClass) (i : nat) (ht : Handle)
    : M (Sys G) Z :=
  fun s =>
    let (status, g) := ogl_tex_upload ht (host s) in
    Next status (emit (EvUpload k i ht status) (with_host g s)).

Definition call_ogl_tex_free (h : Handle) : M (Sys G) unit :=
  fun s => Next tt (emit (EvFree h) (with_host (ogl_tex_free h (host s)) s)).

(** [LOG(ERROR, LOG_CATEGORY, ...)]: the log entry naming the file that
    failed to load. *)
Definition LOG_ERROR (filename : string) : M (Sys G) unit :=
  modify (emit (EvLog filename)).

(** Modelled from the spec: the macro [LDR_CHECK_TIMEOUT] (ps/Loader.h) is
    used by the loader but defined outside this file; per the spec the
    call stops and returns early when the time read from the clock
    exceeds the deadline [end_time] fixed at the start of the call. *)
Definition LDR_CHECK_TIMEOUT (completed_jobs total_jobs : nat)
    (end_time : Q) : M (Sys G) unit :=
  t <- get_time ;;
  if Qle_bool t end_time then ret tt
  else return_ (RetTimeout completed_jobs total_jobs).

(** *** LoadWaterTextures *)

(** The first argument of [LDR_CHECK_TIMEOUT] in each loop. *)
Definition completed_jobs (k : TexClass) (w : WaterManager) : nat :=
  match k with
  | Diffuse => cur_loading_water_tex w
  | Normal => (capacity Diffuse w + cur_loading_normal_map w)%nat
  end.

(** The body of the [while] loop of class [k] (the two loops of the
    source differ in the array, the cursor, the format string and the
    progress reported). *)
Definition load_body (k : TexClass) (end_time : Q) : M (Sys G) unit :=
  c <- gets (fun s => cursor k (this s)) ;;
  size <- gets PATH_MAX ;;
  let filename := snprintf size (tex_fmt k water_type (c + 1)%nat) in
  ht <- call_ogl_tex_load k c filename ;;
  if ht <=? 0 then
    (LOG_ERROR filename ;;
     return_ (RetLoadFailed ht))
  else
    (modify (fun s => with_this (set_slot k c ht (this s)) s) ;;
     RETURN_ERR (call_ogl_tex_upload k c ht) ;;
     modify (fun s => with_this (set_cursor k (c + 1)%nat (this s)) s) ;;
     done <- gets (fun s => completed_jobs k (this s)) ;;
     total <- gets (fun s => (capacity Diffuse (this s)
                              + capacity Normal (this s))%nat) ;;
     LDR_CHECK_TIMEOUT done total end_time).

(** [while (cursor < ARRAY_SIZE(array)) body].  Every iteration that
    falls through has advanced the cursor by one, so
    [capacity - cursor] iterations are enough (see [load_class_exit]). *)
Fixpoint load_loop (k : TexClass) (fuel : nat) (end_time : Q)
    (s : Sys G) : Flow (Sys G) unit :=
  match fuel with
  | O => Next tt s
  | S fuel' =>
      if (cursor k (this s) <? capacity k (this s))%nat then
        match load_body k end_time s with
        | Next _ s' => load_loop k fuel' end_time s'
        | Exit r s' => Exit r s'
        end
      else Next tt s
  end.

Definition load_class (k : TexClass) (end_time : Q) : M (Sys G) unit :=
  fun s =>
    load_loop k (capacity k (this s) - cursor k (this s))%nat end_time s.

Definition set_sizes (size : Z) (w : WaterManager) : WaterManager :=
  {| m_RenderWater := m_RenderWater w;
     m_WaterTexture := m_WaterTexture w;
     m_NormalMap := m_NormalMap w;
     cur_loading_water_tex := cur_loading_water_tex w;
     cur_loading_normal_map := cur_loading_normal_map w;
     m_ReflectionTexture := m_ReflectionTexture w;
     m_RefractionTexture := m_RefractionTexture w;
     m_ReflectionTextureSize := size;
     m_RefractionTextureSize := size |}.

Definition set_ReflectionTexture (name : GLuint) (w : WaterManager)
    : WaterManager :=
  {| m_RenderWater := m_RenderWater w;
     m_WaterTexture := m_WaterTexture w;
     m_NormalMap := m_NormalMap w;
     cur_loading_water_tex := cur_loading_water_tex w;
     cur_loading_normal_map := cur_loading_normal_map w;
     m_ReflectionTexture := name;
     m_RefractionTexture := m_RefractionTexture w;
     m_ReflectionTextureSize := m_ReflectionTextureSize w;
     m_RefractionTextureSize := m_RefractionTextureSize w |}.

Definition set_RefractionTexture (name : GLuint) (w : WaterManager)
    : WaterManager :=
  {| m_RenderWater := m_RenderWater w;
     m_WaterTexture := m_WaterTexture w;
     m_NormalMap := m_NormalMap w;
     cur_loading_water_tex := cur_loading_water_tex w;
     cur_loading_normal_map := cur_loading_normal_map w;
     m_ReflectionTexture := m_ReflectionTexture w;
     m_RefractionTexture := name;
     m_ReflectionTextureSize := m_ReflectionTextureSize w;
     m_RefractionTextureSize := m_RefractionTextureSize w |}.

Definition set_RenderWater (b : bool) (w : WaterManager) : WaterManager :=
  {| m_RenderWater := b;
     m_WaterTexture := m_WaterTexture w;
     m_NormalMap := m_NormalMap w;
     cur_loading_water_tex := cur_loading_water_tex w;
     cur_loading_normal_map := cur_loading_normal_map w;
     m_ReflectionTexture := m_ReflectionTexture w;
     m_RefractionTexture := m_RefractionTexture w;
     m_ReflectionTextureSize := m_ReflectionTextureSize w;
     m_RefractionTextureSize := m_RefractionTextureSize w |}.

Definition on_this (f : WaterManager -> WaterManager) : M (Sys G) unit :=
  modify (fun s => with_this (f (this s)) s).

Definition on_gl (f : GLState -> GLState) : M (Sys G) unit :=
  modify (fun s => with_gl (f (gl s)) s).

Definition call_glGenTextures : M (Sys G) GLuint :=
  fun s => let (name, g) := gl_GenTextures (gl s) in Next name (with_gl g s).

(** The size of the two render targets (lines 134 and 135): [size] is
    an [int], so it holds the rounded-up height only when that fits, and
    [size /= 2] is the division of C++, which truncates. *)
Definition target_size (height : Z) : Z :=
  let size := int_of (RoundUpToPowerOf2 height) in
  if size >? height then Z.quot size 2 else size.

(** The end of [LoadWaterTextures], from the computation of [size] to
    [m_RenderWater = true]. *)
Definition create_targets : M (Sys G) unit :=
  height <- gets g_Renderer_Height ;;
  on_this (set_sizes (target_size height)) ;;
  (* Create reflection texture *)
  name <- call_glGenTextures ;;
  on_this (set_ReflectionTexture name) ;;
  name <- gets (fun s => m_ReflectionTexture (this s)) ;;
  on_gl (gl_BindTexture name) ;;
  size <- gets (fun s => m_ReflectionTextureSize (this s)) ;;
  on_gl (gl_TexImage2D
           (mkTexImage 0 GL_RGB size size 0 GL_RGB GL_UNSIGNED_BYTE 0)) ;;
  on_gl (gl_TexParameteri GL_TEXTURE_MIN_FILTER GL_NEAREST) ;;
  on_gl (gl_TexParameteri GL_TEXTURE_MAG_FILTER GL_LINEAR) ;;
  on_gl (gl_TexParameteri GL_TEXTURE_WRAP_S GL_CLAMP_TO_EDGE) ;;
  on_gl (gl_TexParameteri GL_TEXTURE_WRAP_T GL_CLAMP_TO_EDGE) ;;
  (* Create refraction texture *)
  name <- call_glGenTextures ;;
  on_this (set_RefractionTexture name) ;;
  name <- gets (fun s => m_RefractionTexture (this s)) ;;
  on_gl (gl_BindTexture name) ;;
  size <- gets (fun s => m_RefractionTextureSize (this s)) ;;
  on_gl (gl_TexImage2D
           (mkTexImage 0 GL_RGB size size 0 GL_RGB GL_UNSIGNED_BYTE 0)) ;;
  on_gl (gl_TexParameteri GL_TEXTURE_MIN_FILTER GL_LINEAR) ;;
  on_gl (gl_TexParameteri GL_TEXTURE_MAG_FILTER GL_LINEAR) ;;
  on_gl (gl_TexParameteri GL_TEXTURE_WRAP_S GL_CLAMP_TO_EDGE) ;;
  on_gl (gl_TexParameteri GL_TEXTURE_WRAP_T GL_CLAMP_TO_EDGE) ;;
  (* Enable rendering, now that we've succeeded this far *)
  on_this (set_RenderWater true).

Definition LoadWaterTextures_body : M (Sys G) unit :=
  now <- get_time ;;
  let end_time := (now + 100e-3)%Q in
  load_class Diffuse end_time ;;
  load_class Normal end_time ;;
  create_targets.

(** [int WaterManager::LoadWaterTextures()]: the value returned and the
    state left behind; falling off the body is the final [return 0]. *)
Definition LoadWaterTextures (s : Sys G) : Ret * Sys G :=
  match LoadWaterTextures_body s with
  | Next _ s' => (RetOk, s')
  | Exit r s' => (r, s')
  end.

(** *** UnloadWaterTextures *)

(** The body of each [for] loop: free the slot, then clear it. *)
Definition unload_body (k : TexClass) (i : nat) : M (Sys G) unit :=
  h <- gets (fun s => default 0 (slots k (this s) !! i)) ;;
  call_ogl_tex_free h ;;
  on_this (set_slot k i 0).

(** [for (uint i = 0; i < ARRAY_SIZE(array); i++) body]. *)
Fixpoint unload_loop (k : TexClass) (fuel i : nat) (s : Sys G)
    : Flow (Sys G) unit :=
  match fuel with
  | O => Next tt s
  | S fuel' =>
      if (i <? capacity k (this s))%nat then
        match unload_body k i s with
        | Next _ s' => unload_loop k fuel' (i + 1)%nat s'
        | Exit r s' => Exit r s'
        end
      else Next tt s
  end.

Definition unload_class (k : TexClass) : M (Sys G) unit :=
  fun s => unload_loop k (capacity k (this s)) 0%nat s.

Definition UnloadWaterTextures_body : M (Sys G) unit :=
  unload_class Diffuse ;;
  unload_class Normal ;;
  (* so they will be reloaded if LoadWaterTextures is called again *)
  on_this (set_cursor Diffuse 0%nat) ;;
  on_this (set_cursor Normal 0%nat).

(** [void WaterManager::UnloadWaterTextures()] *)
Definition UnloadWaterTextures (s : Sys G) : Sys G :=
  match UnloadWaterTextures_body s with
  | Next _ s' => s'
  | Exit _ s' => s'
  end.

End Loader.

(** ** Executions *)

(** A freshly constructed manager in an environment that has not been
    used yet. *)
Definition fresh {G} (n_tex n_norm : nat) (g : G) (height : Z)
    (path_max : nat) (clk : nat -> Q) : Sys G :=
  mkSys (WaterManager_ctor n_tex n_norm) g gl_initial height path_max
        clk 0 [].

(** A clock on which the deadline never passes. *)
Definition never_late : nat -> Q := fun _ => 0%Q.

(** A clock on which every deadline has passed at the first check. *)
Definition always_late : nat -> Q := fun n => inject_Z (Z.of_nat n).

(** A scripted texture library, for running the loader on concrete
    inputs: the outcomes of the successive loads and uploads are read off
    two lists (a load past the end of its list fails with [-1], an upload
    past the end succeeds with [0]). *)
Definition Script : Type := list Handle * list Z.

#[local] Instance script_host : Host Script := {
  ogl_tex_load := fun _ g =>
    match fst g with
    | h :: hs => (h, (hs, snd g))
    | [] => (-1, g)
    end;
  ogl_tex_upload := fun _ g =>
    match snd g with
    | u :: us => (u, (fst g, us))
    | [] => (0, g)
    end;
  ogl_tex_free := fun _ g => g
}.


(** ** Vocabulary of the statements *)

Section Vocabulary.

Context {G : Type} {HostG : Host G}.

(** The file name the loop of class [k] asks for in state [s]. *)
Definition request_name (k : TexClass) (s : Sys G) : string :=
  snprintf (PATH_MAX s) (tex_fmt k water_type (cursor k (this s) + 1)%nat).

(** The four ways through the loop body, with the state each leaves. *)
Inductive body_spec (k : TexClass) (end_time : Q) (s : Sys G)
    : Flow (Sys G) unit -> Prop :=
| body_load_failed ht g1 :
    ogl_tex_load (request_name k s) (host s) = (ht, g1) ->
    ht <= 0 ->
    body_spec k end_time s
      (Exit (RetLoadFailed ht)
         (mkSys (this s) g1 (gl s) (g_Renderer_Height s) (PATH_MAX s)
            (clock s) (ticks s)
            (trace s ++ [EvLoad k (cursor k (this s)) (request_name k s) ht;
                         EvLog (request_name k s)])))
| body_upload_failed ht g1 err g2 :
    ogl_tex_load (request_name k s) (host s) = (ht, g1) ->
    0 < ht ->
    ogl_tex_upload ht g1 = (err, g2) ->
    err < 0 ->
    body_spec k end_time s
      (Exit (RetErr err)
         (mkSys (set_slot k (cursor k (this s)) ht (this s)) g2 (gl s)
            (g_Renderer_Height s) (PATH_MAX s) (clock s) (ticks s)
            (trace s ++ [EvLoad k (cursor k (this s)) (request_name k s) ht;
                         EvUpload k (cursor k (this s)) ht err])))
| body_loaded (late : bool) ht g1 status g2 :
    ogl_tex_load (request_name k s) (host s) = (ht, g1) ->
    0 < ht ->
    ogl_tex_upload ht g1 = (status, g2) ->
    0 <= status ->
    late = negb (Qle_bool (clock s (ticks s)) end_time) ->
    let w' := set_cursor k (cursor k (this s) + 1)%nat
                (set_slot k (cursor k (this s)) ht (this s)) in
    let s' := mkSys w' g2 (gl s) (g_Renderer_Height s) (PATH_MAX s)
                (clock s) (S (ticks s))
                (trace s ++ [EvLoad k (cursor k (this s)) (request_name k s) ht;
                             EvUpload k (cursor k (this s)) ht status]) in
    body_spec k end_time s
      (if late
       then Exit (RetTimeout (completed_jobs k w')
                    (capacity Diffuse w' + capacity Normal w')%nat) s'
       else Next tt s').

Definition state_of {S A} (fl : Flow S A) : S :=
  match fl with
  | Next _ s => s
  | Exit _ s => s
  end.

(** What a call leaves alone while it loads: the GL context, the
    renderer, the buffer size, the clock, the render-target members, the
    readiness flag and the size of the arrays; the trace only grows. *)
Record frame (s s' : Sys G) : Prop := {
  frame_gl : gl s' = gl s;
  frame_height : g_Renderer_Height s' = g_Renderer_Height s;
  frame_path_max : PATH_MAX s' = PATH_MAX s;
  frame_clock : clock s' = clock s;
  frame_flag : m_RenderWater (this s') = m_RenderWater (this s);
  frame_reflection :
    m_ReflectionTexture (this s') = m_ReflectionTexture (this s);
  frame_refraction :
    m_RefractionTexture (this s') = m_RefractionTexture (this s);
  frame_reflection_size :
    m_ReflectionTextureSize (this s') = m_ReflectionTextureSize (this s);
  frame_refraction_size :
    m_RefractionTextureSize (this s') = m_RefractionTextureSize (this s);
  frame_capacity : forall k, capacity k (this s') = capacity k (this s);
  frame_trace : exists t, trace s' = trace s ++ t
}.

(** A texture object after [glTexImage2D] and the four
    [glTexParameteri] calls of [LoadWaterTextures]. *)
Definition target_texture (min_filter : GLenum) (size : Z) : Texture :=
  {| tex_image :=
       Some (mkTexImage 0 GL_RGB size size 0 GL_RGB GL_UNSIGNED_BYTE 0);
     tex_min_filter := min_filter;
     tex_mag_filter := GL_LINEAR;
     tex_wrap_s := GL_CLAMP_TO_EDGE;
     tex_wrap_t := GL_CLAMP_TO_EDGE |}.

(** The GL calls made for one render target, once its name is known. *)
Definition configure_target (name : GLuint) (min_filter : GLenum) (size : Z)
    (g : GLState) : GLState :=
  gl_TexParameteri GL_TEXTURE_WRAP_T GL_CLAMP_TO_EDGE
    (gl_TexParameteri GL_TEXTURE_WRAP_S GL_CLAMP_TO_EDGE
       (gl_TexParameteri GL_TEXTURE_MAG_FILTER GL_LINEAR
          (gl_TexParameteri GL_TEXTURE_MIN_FILTER min_filter
             (gl_TexImage2D
                (mkTexImage 0 GL_RGB size size 0 GL_RGB GL_UNSIGNED_BYTE 0)
                (gl_BindTexture name g))))).

(** The state [create_targets] leaves. *)
Definition with_targets (s : Sys G) : Sys G :=
  let size := target_size (g_Renderer_Height s) in
  let n := gl_generated (gl s) in
  mkSys
    {| m_RenderWater := true;
       m_WaterTexture := m_WaterTexture (this s);
       m_NormalMap := m_NormalMap (this s);
       cur_loading_water_tex := cur_loading_water_tex (this s);
       cur_loading_normal_map := cur_loading_normal_map (this s);
       m_ReflectionTexture := n + 1;
       m_RefractionTexture := n + 1 + 1;
       m_ReflectionTextureSize := size;
       m_RefractionTextureSize := size |}
    (host s)
    (configure_target (n + 1 + 1) GL_LINEAR size
       (snd (gl_GenTextures
          (configure_target (n + 1) GL_NEAREST size
             (snd (gl_GenTextures (gl s)))))))
    (g_Renderer_Height s) (PATH_MAX s) (clock s) (ticks s) (trace s).

(** Both loops have nothing left to load. *)
Definition all_loaded (w : WaterManager) : Prop :=
  forall k, (capacity k w <= cursor k w)%nat.


(** The texture object of the reflection and of the refraction target. *)
Definition reflection_target (s : Sys G) : option Texture :=
  gl_textures (gl s) !! m_ReflectionTexture (this s).

Definition refraction_target (s : Sys G) : option Texture :=
  gl_textures (gl s) !! m_RefractionTexture (this s).


(** The object with the whole array of class [k] replaced. *)
Definition with_slots (k : TexClass) (l : list Handle) (w : WaterManager)
    : WaterManager :=
  match k with
  | Diffuse =>
      {| m_RenderWater := m_RenderWater w;
         m_WaterTexture := l;
         m_NormalMap := m_NormalMap w;
         cur_loading_water_tex := cur_loading_water_tex w;
         cur_loading_normal_map := cur_loading_normal_map w;
         m_ReflectionTexture := m_ReflectionTexture w;
         m_RefractionTexture := m_RefractionTexture w;
         m_ReflectionTextureSize := m_ReflectionTextureSize w;
         m_RefractionTextureSize := m_RefractionTextureSize w |}
  | Normal =>
      {| m_RenderWater := m_RenderWater w;
         m_WaterTexture := m_WaterTexture w;
         m_NormalMap := l;
         cur_loading_water_tex := cur_loading_water_tex w;
         cur_loading_normal_map := cur_loading_normal_map w;
         m_ReflectionTexture := m_ReflectionTexture w;
         m_RefractionTexture := m_RefractionTexture w;
         m_ReflectionTextureSize := m_ReflectionTextureSize w;
         m_RefractionTextureSize := m_RefractionTextureSize w |}
  end.

(** The texture library after freeing the handles of [l] in order. *)
Definition free_all (l : list Handle) (g : G) : G :=
  foldl (fun g h => ogl_tex_free h g) g l.

(** The state after the [for] loop of [UnloadWaterTextures] over class
    [k] has freed the handles [freed] and left [l] in the array. *)
Definition after_unload_loop (k : TexClass) (freed l : list Handle)
    (s : Sys G) : Sys G :=
  mkSys (with_slots k l (this s)) (free_all freed (host s)) (gl s)
        (g_Renderer_Height s) (PATH_MAX s) (clock s) (ticks s)
        (trace s ++ map EvFree freed).

(** An unload that leaves the unit as a new one: the object as the
    constructor builds it, and the two render targets deleted. *)
Definition unloaded_like_new (s s' : Sys G) : Prop :=
  this s'
  = WaterManager_ctor (capacity Diffuse (this s)) (capacity Normal (this s)) /\
  gl_textures (gl s') !! m_ReflectionTexture (this s) = None /\
  gl_textures (gl s') !! m_RefractionTexture (this s) = None.

(** A call that rejects the display height: it does not reach the end
    of the function and creates no texture. *)
Definition height_rejected (s : Sys G) : Prop :=
  fst (LoadWaterTextures s) <> RetOk /\
  gl (snd (LoadWaterTextures s)) = gl s.


(** The fixed category string of each class. *)
Definition category (k : TexClass) : string :=
  match k with
  | Diffuse => "diffuse"
  | Normal => "normal"
  end.

(** The decimal digit [n] as a character, and a number below 100 written
    with exactly two digits. *)
Definition digit (n : nat) : ascii := ascii_of_nat (48 + n).

Definition two_digits (n : nat) : string :=
  String (digit (n / 10)) (String (digit (n mod 10)) EmptyString).

(** A file name put together from its parts. *)
Definition texture_path (variant : string) (k : TexClass) (index : nat)
    : string :=
  String.append "art/textures/animated/water/"
    (String.append variant
       (String.append "/"
          (String.append (category k)
             (String.append (two_digits index) ".dds")))).

(** The diffuse loop is over while the normal loop runs. *)
Definition diffuse_done (s : Sys G) : Prop :=
  (capacity Diffuse (this s) <= cursor Diffuse (this s))%nat.

(** The states a manager can be in: constructed, then any sequence of
    calls of [LoadWaterTextures] and [UnloadWaterTextures]. *)
Inductive reachable : Sys G -> Prop :=
| reachable_fresh n_tex n_norm g height path_max clk :
    reachable (fresh n_tex n_norm g height path_max clk)
| reachable_load s :
    reachable s -> reachable (snd (LoadWaterTextures s))
| reachable_unload s :
    reachable s -> reachable (UnloadWaterTextures s).

(** One load session: a constructed manager and calls of
    [LoadWaterTextures] only. *)
Inductive session : Sys G -> Prop :=
| session_fresh n_tex n_norm g height path_max clk :
    session (fresh n_tex n_norm g height path_max clk)
| session_load s :
    session s -> session (snd (LoadWaterTextures s)).

(** ** Reading a trace *)

(** The index a successful upload of class [k] completes. *)
Definition completion (k : TexClass) (e : Event) : option nat :=
  match e with
  | EvUpload k' i _ status =>
      if decide (k' = k) then (if 0 <=? status then Some i else None)
      else None
  | _ => None
  end.

(** The indices of class [k] completed in a trace, in order. *)
Definition completed (k : TexClass) (t : list Event) : list nat :=
  omap (completion k) t.

(** The order of the requests in a trace, for [n_tex] diffuse textures:
    every load is asked for the index that follows the ones of its class
    completed so far; a normal map is asked for only after the diffuse
    textures [0 .. n_tex - 1] have all been completed; an upload directly
    follows the successful load of the handle it uploads. *)
Record trace_ok (n_tex : nat) (t : list Event) : Prop := {
  requests_at_cursor : forall pre k i f h post,
    t = pre ++ EvLoad k i f h :: post -> completed k pre = seq 0 i;
  normal_after_diffuse : forall pre i f h post,
    t = pre ++ EvLoad Normal i f h :: post ->
    completed Diffuse pre = seq 0 n_tex;
  upload_after_load : forall pre k i h status post,
    t = pre ++ EvUpload k i h status :: post ->
    0 < h /\ exists pre' f, pre = pre' ++ [EvLoad k i f h]
}.


(** Requests of one class in strictly ascending index order. *)
Definition strictly_ascending_requests (t : list Event) : Prop :=
  forall pre k i f h mid j f' h' post,
    t = pre ++ EvLoad k i f h :: mid ++ EvLoad k j f' h' :: post ->
    (i < j)%nat.

(** What holds throughout a load session. *)
Record session_ok (s : Sys G) : Prop := {
  so_pool : pool_ok (this s);
  so_flag : m_RenderWater (this s) = true -> all_loaded (this s);
  so_trace : trace_ok (capacity Diffuse (this s)) (trace s);
  so_completed : forall k, completed k (trace s) = seq 0 (cursor k (this s))
}.

(** ** Resuming *)

(** Two states that differ at most in the clock. *)
Definition same_work (s u : Sys G) : Prop :=
  this s = this u /\ host s = host u /\ gl s = gl u /\
  g_Renderer_Height s = g_Renderer_Height u /\
  PATH_MAX s = PATH_MAX u /\ trace s = trace u.

(** The deadline [end_time] never passes on the clock of [u]. *)
Definition on_time (end_time : Q) (u : Sys G) : Prop :=
  forall n, Qle_bool (clock u n) end_time = true.

(** The number of textures still to load. *)
Definition remaining (w : WaterManager) : nat :=
  ((capacity Diffuse w - cursor Diffuse w)
   + (capacity Normal w - cursor Normal w))%nat.

(** The state after [n] calls of [LoadWaterTextures]. *)
Fixpoint calls (n : nat) (s : Sys G) : Sys G :=
  match n with
  | O => s
  | S n' => calls n' (snd (LoadWaterTextures s))
  end.

(** The two loops of [LoadWaterTextures], one after the other. *)
Definition both_loops (end_time : Q) : M (Sys G) unit :=
  load_class Diffuse end_time ;; load_class Normal end_time.

(** ** Whole calls *)

(** A request that succeeded: a load that gave a handle, or an upload
    that gave a non-negative status. *)
Definition successful_request (e : Event) : Prop :=
  match e with
  | EvLoad _ _ _ ht => 0 < ht
  | EvUpload _ _ _ status => 0 <= status
  | _ => False
  end.

(** The requests a call that returned [r] ended with, read in the state
    [s'] it left: the failed load and its log entry, or the load and the
    failed upload; nothing for the other returns. *)
Definition last_requests (r : Ret) (s' : Sys G) (tl : list Event) : Prop :=
  match r with
  | RetLoadFailed ht =>
      ht <= 0 /\
      exists k, tl = [EvLoad k (cursor k (this s')) (request_name k s') ht;
                      EvLog (request_name k s')]
  | RetErr err =>
      err < 0 /\
      exists k ht, 0 < ht /\
        tl = [EvLoad k (cursor k (this s')) (request_name k s') ht;
              EvUpload k (cursor k (this s')) ht err]
  | _ => tl = []
  end.

(** What a call may do to the arrays: the cursors do not go back, the
    arrays keep their size, and the slots below the cursors are not
    written. *)
Definition never_rewound (s s' : Sys G) : Prop :=
  forall k,
    (cursor k (this s) <= cursor k (this s'))%nat /\
    capacity k (this s') = capacity k (this s) /\
    forall i, (i < cursor k (this s))%nat ->
      slots k (this s') !! i = slots k (this s) !! i.

(** The files a trace asks [ogl_tex_load] for, with the class and index
    each is for, in order. *)
Definition requests (t : list Event) : list (TexClass * nat * string) :=
  omap (fun e => match e with
                 | EvLoad k i f _ => Some (k, i, f)
                 | _ => None
                 end) t.

(** The requests for the [n] indices of class [k] from [from] on, with a
    name buffer of [path_max] characters. *)
Definition expected_requests (path_max : nat) (k : TexClass) (from n : nat)
    : list (TexClass * nat * string) :=
  map (fun i => (k, i, snprintf path_max (tex_fmt k water_type (i + 1)%nat)))
      (seq from n).

(** The handle a successful upload of class [k] completes. *)
Definition completed_handle (k : TexClass) (e : Event) : option Handle :=
  match e with
  | EvUpload k' _ h status =>
      if decide (k' = k) then (if 0 <=? status then Some h else None)
      else None
  | _ => None
  end.

(** The handles of class [k] completed in a trace, in order. *)
Definition completed_handles (k : TexClass) (t : list Event) : list Handle :=
  omap (completed_handle k) t.

(** The arrays hold the handles completed so far. *)
Definition slots_hold_handles (s : Sys G) : Prop :=
  forall k,
    take (cursor k (this s)) (slots k (this s))
    = completed_handles k (trace s).

(** Both render targets are there: each name stored in the object is the
    name of a texture with the image and parameters [LoadWaterTextures]
    gives it and the size stored beside it; the two sizes agree and the
    two names differ. *)
Definition targets_ready (s : Sys G) : Prop :=
  reflection_target s
  = Some (target_texture GL_NEAREST (m_ReflectionTextureSize (this s))) /\
  refraction_target s
  = Some (target_texture GL_LINEAR (m_RefractionTextureSize (this s))) /\
  m_ReflectionTextureSize (this s) = m_RefractionTextureSize (this s) /\
  m_ReflectionTexture (this s) <> m_RefractionTexture (this s).

(** [WaterManager::~WaterManager()]: the destructor only calls
    [UnloadWaterTextures]; what is left is the environment the object
    lived in. *)
Definition WaterManager_dtor (s : Sys G) : Sys G := UnloadWaterTextures s.

End Vocabulary.

(** ** Example runs *)

(** Two diffuse textures and one normal map that load and upload without
    failure, a display 1000 pixels high; everything loads in one call. *)
Definition example_start : Sys Script :=
  fresh 2 1 ([11; 12; 13], []) 1000 256 never_late.

Definition example_loaded : Sys Script :=
  snd (LoadWaterTextures example_start).

(** The same textures on a clock on which every call is out of time
    after its first texture. *)
Definition example_sliced : Sys Script :=
  fresh 2 1 ([11; 12; 13], []) 1000 256 always_late.

(** Three diffuse textures and two normal maps; the load of the third
    diffuse texture fails with [-5]. *)
Definition example_third_fails : Sys Script :=
  fresh 3 2 ([11; 12; -5], []) 768 256 never_late.

(** The upload of the second diffuse texture fails with [-3]. *)
Definition example_upload_fails : Sys Script :=
  fresh 2 1 ([11; 12], [0; -3]) 768 256 never_late.

(** One diffuse texture and one normal map; the load of the diffuse
    texture fails the first time and succeeds the second time. *)
Definition example_retry : Sys Script :=
  fresh 1 1 ([-1; 11; 12], []) 600 256 never_late.

(** One diffuse texture and one normal map that load, and a display of
    height 0. *)
Definition example_zero_height : Sys Script :=
  fresh 1 1 ([11; 12], []) 0 256 never_late.

(** A texture library that never fails: the [n]-th load gives the handle
    [n] and every upload gives 0. *)
#[local] Instance counting_host : Host nat := {
  ogl_tex_load := fun _ g => (Z.of_nat (S g), S g);
  ogl_tex_upload := fun _ g => (0, g);
  ogl_tex_free := fun _ g => g
}.

(** Two diffuse textures and one normal map on the library that never
    fails, loaded in one call and on a clock that is always late. *)
Definition example_counting : Sys nat :=
  fresh 2 1 0%nat 600 256 never_late.


(** Two diffuse textures and one normal map; the upload of the second
    diffuse texture fails with [-3], and when the function is called
    again the file loads with the handle 21. *)
Definition example_upload_retry : Sys Script :=
  fresh 2 1 ([11; 12; 21; 13], [0; -3]) 768 256 never_late.




(** Two diffuse textures and one normal map; the load of the second
    diffuse texture gives the null handle 0. *)
Definition example_null_handle : Sys Script :=
  fresh 2 1 ([11; 0], []) 768 256 never_late.

(** * Properties *)

Section LoaderFacts.

Context {G : Type} {HostG : Host G}.

(** ** One iteration of a loading loop *)

Lemma load_body_spec k end_time s :
  body_spec k end_time s (load_body k end_time s).
Proof.
  unfold load_body, bind, gets, call_ogl_tex_load.
  fold (request_name k s).
  destruct (ogl_tex_load (request_name k s) (host s)) as [ht g1] eqn:Hload.
  destruct (Z.leb_spec ht 0) as [Hht|Hht].
  - unfold LOG_ERROR, modify, return_, emit, with_host; simpl.
    rewrite <- app_assoc. simpl.
    eapply body_load_failed; eauto.
  - unfold modify, RETURN_ERR, bind, call_ogl_tex_upload; simpl.
    destruct (ogl_tex_upload ht g1) as [st g2] eqn:Hup.
    destruct (Z.ltb_spec st 0) as [Hst|Hst].
    + unfold return_, emit, with_host, with_this; simpl.
      rewrite <- app_assoc. simpl.
      eapply body_upload_failed; eauto.
    + unfold ret, LDR_CHECK_TIMEOUT, bind, get_time, return_,
        emit, with_host, with_this, with_ticks; simpl.
      rewrite <- app_assoc. simpl.
      pose proof (body_loaded k end_time s
                    (negb (Qle_bool (clock s (ticks s)) end_time))
                    ht g1 st g2 Hload Hht Hup Hst eq_refl) as Hspec.
      simpl in Hspec.
      destruct (Qle_bool (clock s (ticks s)) end_time); exact Hspec.
Qed.

(** ** The loops *)

Lemma frame_refl (s : Sys G) : frame s s.
Proof.
  split; auto. exists []. now rewrite app_nil_r.
Qed.

Lemma frame_trans (s1 s2 s3 : Sys G) :
  frame s1 s2 -> frame s2 s3 -> frame s1 s3.
Proof.
  intros H12 H23; split.
  - rewrite (frame_gl _ _ H23). apply H12.
  - rewrite (frame_height _ _ H23). apply H12.
  - rewrite (frame_path_max _ _ H23). apply H12.
  - rewrite (frame_clock _ _ H23). apply H12.
  - rewrite (frame_flag _ _ H23). apply H12.
  - rewrite (frame_reflection _ _ H23). apply H12.
  - rewrite (frame_refraction _ _ H23). apply H12.
  - rewrite (frame_reflection_size _ _ H23). apply H12.
  - rewrite (frame_refraction_size _ _ H23). apply H12.
  - intros k. rewrite (frame_capacity _ _ H23). apply H12.
  - destruct (frame_trace _ _ H12) as [t1 H1].
    destruct (frame_trace _ _ H23) as [t2 H2].
    exists (t1 ++ t2). rewrite H2, H1. now rewrite app_assoc.
Qed.

Lemma capacity_set_slot k k' i h w :
  capacity k (set_slot k' i h w) = capacity k w.
Proof.
  unfold capacity; destruct k, k'; simpl; auto using length_insert.
Qed.

Lemma capacity_set_cursor k k' c w :
  capacity k (set_cursor k' c w) = capacity k w.
Proof. destruct k, k'; reflexivity. Qed.

Lemma cursor_set_slot k k' i h w :
  cursor k (set_slot k' i h w) = cursor k w.
Proof. destruct k, k'; reflexivity. Qed.

Lemma cursor_set_cursor k c w : cursor k (set_cursor k c w) = c.
Proof. destruct k; reflexivity. Qed.

Lemma cursor_set_cursor_ne k k' c w :
  k <> k' -> cursor k (set_cursor k' c w) = cursor k w.
Proof. intros H; destruct k, k'; try reflexivity; now destruct H. Qed.

Lemma slots_set_cursor k k' c w : slots k (set_cursor k' c w) = slots k w.
Proof. destruct k, k'; reflexivity. Qed.

Lemma slots_set_slot k i h w :
  slots k (set_slot k i h w) = <[i := h]> (slots k w).
Proof. destruct k; reflexivity. Qed.

Lemma slots_set_slot_ne k k' i h w :
  k <> k' -> slots k (set_slot k' i h w) = slots k w.
Proof. intros H; destruct k, k'; try reflexivity; now destruct H. Qed.

Lemma body_frame k e s : frame s (state_of (load_body k e s)).
Proof.
  destruct (load_body_spec k e s) as [ | | late ].
  - split; simpl; eauto.
  - split; simpl; eauto; try (destruct k; reflexivity).
    intros k'. apply capacity_set_slot.
  - assert (frame s s').
    { subst s' w'; split; simpl; eauto; try (destruct k; reflexivity).
      intros k'. now rewrite capacity_set_cursor, capacity_set_slot. }
    destruct late; assumption.
Qed.

(** Reasoning about a loop: it is left because the cursor has reached
    the size of the array, or by a return of the body; otherwise the body
    fell through and the loop goes on from the state it left. *)
Lemma load_loop_elim (P : Sys G -> Flow (Sys G) unit -> Prop) k e :
  (forall s, (capacity k (this s) <= cursor k (this s))%nat ->
     P s (Next tt s)) ->
  (forall s r s', (cursor k (this s) < capacity k (this s))%nat ->
     load_body k e s = Exit r s' -> P s (Exit r s')) ->
  (forall s s1 fl, (cursor k (this s) < capacity k (this s))%nat ->
     load_body k e s = Next tt s1 -> P s1 fl -> P s fl) ->
  forall fuel s,
    (capacity k (this s) - cursor k (this s) <= fuel)%nat ->
    P s (load_loop k fuel e s).
Proof.
  intros Hdone Hexit Hnext.
  induction fuel as [|fuel IH]; intros s Hfuel; simpl.
  - apply Hdone. lia.
  - destruct (Nat.ltb_spec (cursor k (this s)) (capacity k (this s)))
      as [Hlt|Hge]; [|now apply Hdone].
    destruct (load_body k e s) as [[] s1|r s1] eqn:Hbody.
    + apply (Hnext s s1); auto.
      apply IH.
      pose proof (load_body_spec k e s) as Hspec. rewrite Hbody in Hspec.
      inversion Hspec as [ | | late ht g1 st g2 Hl Hht Hu Hst Hlate w' s' Hfl ].
      destruct late; inversion Hfl; subst s1.
      subst s' w'; simpl.
      rewrite capacity_set_cursor, capacity_set_slot, cursor_set_cursor. lia.
    + now apply Hexit.
Qed.

Lemma load_class_elim (P : Sys G -> Flow (Sys G) unit -> Prop) k e :
  (forall s, (capacity k (this s) <= cursor k (this s))%nat ->
     P s (Next tt s)) ->
  (forall s r s', (cursor k (this s) < capacity k (this s))%nat ->
     load_body k e s = Exit r s' -> P s (Exit r s')) ->
  (forall s s1 fl, (cursor k (this s) < capacity k (this s))%nat ->
     load_body k e s = Next tt s1 -> P s1 fl -> P s fl) ->
  forall s, P s (load_class k e s).
Proof.
  intros. unfold load_class. apply load_loop_elim; auto.
Qed.

(** The loop is left by falling through only when the cursor has reached
    the size of the array: the fuel of [load_class] never runs out. *)
Lemma load_class_exit k e s s' :
  load_class k e s = Next tt s' ->
  (capacity k (this s') <= cursor k (this s'))%nat.
Proof.
  revert s'. pattern s, (load_class k e s). apply load_class_elim.
  - intros s0 H s' [= <-]. exact H.
  - intros; discriminate.
  - auto.
Qed.

Lemma load_class_frame k e s : frame s (state_of (load_class k e s)).
Proof.
  pattern s, (load_class k e s). apply load_class_elim.
  - intros; apply frame_refl.
  - intros s0 r s' _ Hb. pose proof (body_frame k e s0) as H.
    now rewrite Hb in H.
  - intros s0 s1 fl _ Hb IH. pose proof (body_frame k e s0) as H.
    rewrite Hb in H. eapply frame_trans; eauto.
Qed.

(** A loop never leaves the function with [return 0]. *)
Lemma load_class_not_ok k e s s' : load_class k e s <> Exit RetOk s'.
Proof.
  revert s'. pattern s, (load_class k e s). apply load_class_elim.
  - intros; discriminate.
  - intros s0 r s1 _ Hb s' [= -> ->].
    pose proof (load_body_spec k e s0) as Hspec. rewrite Hb in Hspec.
    inversion Hspec as [ | | late ht g1 st g2 Hl Hht Hu Hst Hlate w' s2 Hfl ].
    destruct late; discriminate.
  - auto.
Qed.

(** ** The render targets *)

Lemma configure_target_generated name mf size g :
  gl_generated (configure_target name mf size g) = gl_generated g.
Proof. reflexivity. Qed.

Lemma configure_target_lookup name mf size g :
  gl_textures (configure_target name mf size g) !! name
  = Some (target_texture mf size).
Proof.
  unfold configure_target, gl_TexParameteri, gl_TexImage2D, gl_on_bound,
    gl_BindTexture; simpl.
  rewrite !lookup_alter_eq.
  destruct (gl_textures g !! name) as [t|] eqn:Ht.
  - rewrite Ht; simpl. reflexivity.
  - rewrite lookup_insert_eq; simpl. reflexivity.
Qed.

Lemma configure_target_lookup_ne name mf size g j :
  j <> name ->
  gl_textures (configure_target name mf size g) !! j = gl_textures g !! j.
Proof.
  intros Hj.
  unfold configure_target, gl_TexParameteri, gl_TexImage2D, gl_on_bound,
    gl_BindTexture; simpl.
  rewrite !lookup_alter_ne by congruence.
  destruct (gl_textures g !! name); [reflexivity|].
  now rewrite lookup_insert_ne by congruence.
Qed.

Lemma create_targets_eq (s : Sys G) :
  create_targets s = Next tt (with_targets s).
Proof. reflexivity. Qed.

(** A call, split at the places it can return from. *)
Lemma LoadWaterTextures_eq (s : Sys G) :
  let end_time := (clock s (ticks s) + 100e-3)%Q in
  LoadWaterTextures s =
  match load_class Diffuse end_time (with_ticks (S (ticks s)) s) with
  | Exit r s' => (r, s')
  | Next _ s1 =>
      match load_class Normal end_time s1 with
      | Exit r s' => (r, s')
      | Next _ s2 => (RetOk, with_targets s2)
      end
  end.
Proof.
  unfold LoadWaterTextures, LoadWaterTextures_body, bind, get_time; simpl.
  destruct (load_class Diffuse _ _) as [[] s1|]; [|reflexivity].
  destruct (load_class Normal _ _) as [[] s2|]; reflexivity.
Qed.

Lemma frame_with_ticks n (s : Sys G) : frame s (with_ticks n s).
Proof.
  split; auto. exists []. simpl. now rewrite app_nil_r.
Qed.

Lemma load_class_done k e (s : Sys G) :
  (capacity k (this s) <= cursor k (this s))%nat ->
  load_class k e s = Next tt s.
Proof.
  intros H. unfold load_class.
  replace (capacity k (this s) - cursor k (this s))%nat with 0%nat by lia.
  reflexivity.
Qed.

(** A call that reaches the final [return 0] has run both loops to their
    end and then created the render targets. *)
Lemma LoadWaterTextures_ok (s s' : Sys G) :
  LoadWaterTextures s = (RetOk, s') ->
  exists s2, s' = with_targets s2 /\ frame s s2 /\ all_loaded (this s2).
Proof.
  rewrite LoadWaterTextures_eq.
  set (e := (clock s (ticks s) + 100e-3)%Q).
  set (s0 := with_ticks (S (ticks s)) s).
  pose proof (load_class_frame Diffuse e s0) as F1.
  pose proof (load_class_exit Diffuse e s0) as X1.
  destruct (load_class Diffuse e s0) as [[] s1|r s1] eqn:H1.
  2:{ intros [= -> ->]. now apply load_class_not_ok in H1. }
  pose proof (load_class_frame Normal e s1) as F2.
  pose proof (load_class_exit Normal e s1) as X2.
  destruct (load_class Normal e s1) as [[] s2|r s2] eqn:H2.
  2:{ intros [= -> ->]. now apply load_class_not_ok in H2. }
  intros [= <-]. exists s2. simpl in F1, F2.
  split; [reflexivity|]. split.
  - eapply frame_trans; [apply frame_with_ticks|].
    eapply frame_trans; eauto.
  - intros [|]; [|now apply X2].
    specialize (X1 s1 eq_refl).
    assert (Hc : cursor Diffuse (this s2) = cursor Diffuse (this s1)).
    { clear -H2. revert s2 H2.
      pattern s1, (load_class Normal e s1). apply load_class_elim.
      - intros sx _ sy [= <-]. reflexivity.
      - intros; discriminate.
      - intros sx sa fl _ Hb IH sy Hfl. rewrite (IH sy Hfl).
        pose proof (load_body_spec Normal e sx) as Hs. rewrite Hb in Hs.
        inversion Hs as [ | | late ht g1 st g2 Hl Hht Hu Hst Hlate w' s3 Hfl' ].
        destruct late; inversion Hfl'. reflexivity. }
    rewrite Hc, (frame_capacity _ _ F2). exact X1.
Qed.

Lemma gl_GenTextures_textures g :
  gl_textures (snd (gl_GenTextures g)) = gl_textures g.
Proof. reflexivity. Qed.

Lemma with_targets_reflection (s : Sys G) :
  reflection_target (with_targets s)
  = Some (target_texture GL_NEAREST (target_size (g_Renderer_Height s))).
Proof.
  unfold reflection_target, with_targets.
  cbn [gl this m_ReflectionTexture].
  rewrite configure_target_lookup_ne by lia.
  rewrite gl_GenTextures_textures. apply configure_target_lookup.
Qed.

Lemma with_targets_refraction (s : Sys G) :
  refraction_target (with_targets s)
  = Some (target_texture GL_LINEAR (target_size (g_Renderer_Height s))).
Proof.
  unfold refraction_target, with_targets.
  cbn [gl this m_RefractionTexture].
  apply configure_target_lookup.
Qed.

(** ** Size of the render targets *)




(** Above [2 ^ 30] it does not: the height rounds up to [2 ^ 31], the
    [int] that receives it is negative, and nothing is halved. *)
Lemma target_size_overflow h :
  2 ^ 30 < h < 2 ^ 31 -> target_size h = - 2147483648.
Proof.
  intros [Hlo Hhi]. unfold target_size, RoundUpToPowerOf2.
  assert (HL : Z.log2_up h = 31).
  { apply Z.log2_up_unique; [lia|].
    change (Z.pred 31) with 30. lia. }
  rewrite HL. change (int_of (2 ^ 31)) with (- 2147483648).
  destruct (Z.gtb_spec (- 2147483648) h) as [Hgt|Hle]; [|reflexivity].
  change (2 ^ 30) with 1073741824 in Hlo. lia.
Qed.




(** ** Filters of the render targets *)


(** ** Unloading *)

Lemma with_slots_set_slot k l i h w :
  with_slots k l (set_slot k i h w) = with_slots k l w.
Proof. destruct k; reflexivity. Qed.

Lemma with_slots_same k w : with_slots k (slots k w) w = w.
Proof. destruct k, w; reflexivity. Qed.

Lemma unload_loop_spec k todo :
  forall done fuel (s : Sys G),
    slots k (this s) = done ++ todo ->
    (length todo <= fuel)%nat ->
    unload_loop k fuel (length done) s
    = Next tt (after_unload_loop k todo
                 (done ++ replicate (length todo) 0) s).
Proof.
  induction todo as [|x todo IH]; intros done fuel s Hl Hfuel.
  - assert (Hc : capacity k (this s) = length done).
    { unfold capacity. rewrite Hl, app_nil_r. reflexivity. }
    assert (Hs : after_unload_loop k [] (done ++ replicate 0 0) s = s).
    { unfold after_unload_loop; simpl. rewrite !app_nil_r in *.
      rewrite <- Hl, with_slots_same. now destruct s. }
    change (length (@nil Handle)) with 0%nat. rewrite Hs.
    destruct fuel; simpl; [reflexivity|].
    rewrite Hc. now rewrite Nat.ltb_irrefl.
  - destruct fuel as [|fuel]; [simpl in Hfuel; lia|].
    simpl in Hfuel. simpl.
    assert (Hc : (length done <? capacity k (this s))%nat = true).
    { apply Nat.ltb_lt. unfold capacity. rewrite Hl, length_app. simpl. lia. }
    rewrite Hc.
    unfold unload_body, bind, gets, call_ogl_tex_free, on_this, modify.
    rewrite Hl, list_lookup_middle by reflexivity. simpl.
    replace (length done + 1)%nat with (length (done ++ [0])).
    2:{ rewrite length_app. reflexivity. }
    rewrite IH.
    + f_equal. unfold after_unload_loop, emit, with_this, with_host; simpl.
      rewrite with_slots_set_slot, <- !app_assoc. reflexivity.
    + simpl. rewrite slots_set_slot, Hl.
      rewrite <- (Nat.add_0_r (length done)), insert_app_r. simpl.
      now rewrite <- app_assoc.
    + lia.
Qed.

Lemma unload_class_spec k (s : Sys G) :
  unload_class k s
  = Next tt (after_unload_loop k (slots k (this s))
               (replicate (capacity k (this s)) 0) s).
Proof.
  unfold unload_class, capacity.
  apply (unload_loop_spec k (slots k (this s)) [] _ s); auto.
Qed.

(** The state [UnloadWaterTextures] leaves: the handles of both arrays
    freed in order, both arrays cleared and both cursors at zero; every
    other member, the GL context and the clock as they were. *)
Lemma UnloadWaterTextures_eq (s : Sys G) :
  UnloadWaterTextures s =
  mkSys
    {| m_RenderWater := m_RenderWater (this s);
       m_WaterTexture := replicate (capacity Diffuse (this s)) 0;
       m_NormalMap := replicate (capacity Normal (this s)) 0;
       cur_loading_water_tex := 0;
       cur_loading_normal_map := 0;
       m_ReflectionTexture := m_ReflectionTexture (this s);
       m_RefractionTexture := m_RefractionTexture (this s);
       m_ReflectionTextureSize := m_ReflectionTextureSize (this s);
       m_RefractionTextureSize := m_RefractionTextureSize (this s) |}
    (free_all (m_WaterTexture (this s) ++ m_NormalMap (this s)) (host s))
    (gl s) (g_Renderer_Height s) (PATH_MAX s) (clock s) (ticks s)
    (trace s ++ map EvFree (m_WaterTexture (this s) ++ m_NormalMap (this s))).
Proof.
  unfold UnloadWaterTextures, UnloadWaterTextures_body, bind.
  rewrite unload_class_spec, unload_class_spec.
  unfold on_this, modify, after_unload_loop, with_this, free_all; simpl.
  rewrite map_app, foldl_app, app_assoc. reflexivity.
Qed.

(** C1, as the code has it.  In every state, [UnloadWaterTextures]
    passes the handle of every slot of both arrays to [ogl_tex_free], in
    index order, clears every slot and resets both cursors to 0; it
    leaves the readiness flag, the two render-target names and sizes, and
    the GL context (so the render-target textures themselves) as they
    were. *)
Theorem unload_frees_slots_and_keeps_targets (s : Sys G) :
  let s' := UnloadWaterTextures s in
  (forall k, slots k (this s') = replicate (capacity k (this s)) 0 /\
             cursor k (this s') = 0%nat) /\
  trace s'
  = trace s ++ map EvFree (m_WaterTexture (this s) ++ m_NormalMap (this s)) /\
  host s'
  = free_all (m_WaterTexture (this s) ++ m_NormalMap (this s)) (host s) /\
  m_RenderWater (this s') = m_RenderWater (this s) /\
  m_ReflectionTexture (this s') = m_ReflectionTexture (this s) /\
  m_RefractionTexture (this s') = m_RefractionTexture (this s) /\
  m_ReflectionTextureSize (this s') = m_ReflectionTextureSize (this s) /\
  m_RefractionTextureSize (this s') = m_RefractionTextureSize (this s) /\
  gl s' = gl s.
Proof.
  intros s'. subst s'. rewrite UnloadWaterTextures_eq. simpl.
  split; [intros k; destruct k; split; reflexivity|].
  repeat split; reflexivity.
Qed.

(** ** Calls once everything is loaded *)

Lemma LoadWaterTextures_all_loaded (s : Sys G) :
  all_loaded (this s) ->
  LoadWaterTextures s = (RetOk, with_targets (with_ticks (S (ticks s)) s)).
Proof.
  intros Hall. rewrite LoadWaterTextures_eq.
  rewrite !load_class_done by apply Hall. reflexivity.
Qed.

(** C6, as the code has it.  The display height is not validated: a
    call made while the renderer's height is zero or negative reaches the
    end of the function when nothing is left to load, and whenever it
    reaches the end it has generated two texture names, given each of
    them the image and the parameters of a render target (a square image
    of the size stored beside it, the filters, the wrapping) and set the
    readiness flag, as for any other height.  The caller receives 0. *)
Theorem nonpositive_height_is_not_rejected (s : Sys G) :
  g_Renderer_Height s <= 0 ->
  (all_loaded (this s) -> fst (LoadWaterTextures s) = RetOk) /\
  (fst (LoadWaterTextures s) = RetOk ->
   let s' := snd (LoadWaterTextures s) in
   return_value (fst (LoadWaterTextures s)) = Some 0 /\
   m_RenderWater (this s') = true /\
   gl_generated (gl s') = gl_generated (gl s) + 2 /\
   reflection_target s'
   = Some (target_texture GL_NEAREST (m_ReflectionTextureSize (this s'))) /\
   refraction_target s'
   = Some (target_texture GL_LINEAR (m_RefractionTextureSize (this s'))) /\
   m_ReflectionTextureSize (this s') = target_size (g_Renderer_Height s) /\
   m_RefractionTextureSize (this s') = target_size (g_Renderer_Height s) /\
   m_ReflectionTexture (this s') <> m_RefractionTexture (this s')).
Proof.
  intros _. split.
  - intros Hall. now rewrite (LoadWaterTextures_all_loaded s Hall).
  - destruct (LoadWaterTextures s) as [r s'] eqn:Hcall. cbn [fst snd].
    intros ->.
    destruct (LoadWaterTextures_ok s s' Hcall) as (s2 & -> & F & _).
    rewrite with_targets_reflection, with_targets_refraction.
    rewrite <- (frame_height _ _ F).
    split; [reflexivity|]. split; [reflexivity|].
    split; [cbn [with_targets gl]; simpl; rewrite (frame_gl _ _ F); lia|].
    split; [reflexivity|]. split; [reflexivity|].
    split; [reflexivity|]. split; [reflexivity|].
    simpl. lia.
Qed.


(** ** File names *)

Lemma fmt_02d_two_digits n : (n < 100)%nat -> fmt_02d n = two_digits n.
Proof.
  intros Hn.
  do 100 (destruct n as [|n]; [reflexivity|]).
  lia.
Qed.

Lemma tex_fmt_texture_path k variant n :
  (n < 100)%nat -> tex_fmt k variant n = texture_path variant k n.
Proof.
  intros Hn. unfold texture_path.
  destruct k; unfold tex_fmt, diffuse_fmt, normal_fmt, category;
    rewrite (fmt_02d_two_digits n Hn); reflexivity.
Qed.

Lemma substring_fits (str : string) :
  forall m, (String.length str <= m)%nat -> substring 0 m str = str.
Proof.
  induction str as [|c str IH]; intros m Hm.
  - destruct m; reflexivity.
  - destruct m as [|m]; simpl in Hm; [lia|].
    simpl. rewrite IH by lia. reflexivity.
Qed.

Lemma length_append (a b : string) :
  String.length (String.append a b) = (String.length a + String.length b)%nat.
Proof.
  induction a as [|x a IH]; [reflexivity|].
  change (S (String.length (String.append a b))
          = S (String.length a + String.length b)).
  now f_equal.
Qed.

Lemma snprintf_fits size str :
  (String.length str < size)%nat -> snprintf size str = str.
Proof.
  intros H. unfold snprintf. apply substring_fits. lia.
Qed.

Lemma texture_path_length variant k n :
  (String.length (texture_path variant k n)
   <= String.length variant + 42)%nat.
Proof.
  unfold texture_path. rewrite !length_append.
  destruct k; simpl; lia.
Qed.

(** C9.  The name asked for at cursor value [c] is the fixed directory,
    the variant name, the category string ("diffuse" or "normal"), the
    1-based index [c + 1] written with exactly two decimal digits, and the
    extension ".dds" (for any variant name the format is given, and the
    loader gives it "default"); it is the name passed to [ogl_tex_load]
    by the loop body.  The first diffuse name ends in "diffuse01.dds" and
    the twelfth normal name in "normal12.dds". *)
Theorem request_name_format (k : TexClass) (s : Sys G) (end_time : Q) :
  let c := cursor k (this s) in
  (c < capacity k (this s))%nat ->
  (c < 99)%nat ->
  (50 <= PATH_MAX s)%nat ->
  (forall variant, tex_fmt k variant (c + 1)
                   = texture_path variant k (c + 1)) /\
  request_name k s = texture_path "default" k (c + 1) /\
  (exists rest,
     trace (state_of (load_body k end_time s))
     = trace s ++ EvLoad k c (texture_path "default" k (c + 1))
                    (fst (ogl_tex_load (texture_path "default" k (c + 1))
                            (host s)))
                  :: rest) /\
  texture_path "default" Diffuse 1
  = "art/textures/animated/water/default/diffuse01.dds"%string /\
  texture_path "default" Normal 12
  = "art/textures/animated/water/default/normal12.dds"%string.
Proof.
  intros c Hcap Hc Hsize.
  assert (Hname : request_name k s = texture_path "default" k (c + 1)).
  { unfold request_name. fold c. unfold water_type.
    rewrite tex_fmt_texture_path by lia.
    apply snprintf_fits.
    pose proof (texture_path_length "default" k (c + 1)) as Hlen.
    simpl String.length in Hlen at 2. lia. }
  split; [|split; [exact Hname|split; [|split; reflexivity]]].
  - intros variant. apply tex_fmt_texture_path. lia.
  - rewrite <- Hname.
    destruct (load_body_spec k end_time s)
      as [ht g1 Hl Hht|ht g1 err g2 Hl Hht Hu Herr
         |late ht g1 st g2 Hl Hht Hu Hst Hlate w' s'];
      [| |destruct late]; subst c; rewrite Hl; simpl; eauto.
Qed.

(** ** A rule for whole calls *)

(** A property kept by every iteration that falls through holds when a
    loop is left, at its end or in the iteration that returns. *)
Lemma load_class_rule (Inv : Sys G -> Prop) k e :
  (forall s s1, Inv s ->
     (cursor k (this s) < capacity k (this s))%nat ->
     load_body k e s = Next tt s1 -> Inv s1) ->
  forall s, Inv s ->
  match load_class k e s with
  | Next _ s1 => Inv s1 /\ (capacity k (this s1) <= cursor k (this s1))%nat
  | Exit r s' =>
      exists s_mid, Inv s_mid /\
        (cursor k (this s_mid) < capacity k (this s_mid))%nat /\
        load_body k e s_mid = Exit r s'
  end.
Proof.
  intros Hstep s. pattern s, (load_class k e s). apply load_class_elim.
  - intros s0 Hc HI. split; assumption.
  - intros s0 r s' Hc Hb HI. exists s0. auto.
  - intros s0 s1 fl Hc Hb IH HI. apply IH. eapply Hstep; eauto.
Qed.

Lemma body_other_class k k' e (s : Sys G) :
  k' <> k ->
  cursor k' (this (state_of (load_body k e s))) = cursor k' (this s) /\
  slots k' (this (state_of (load_body k e s))) = slots k' (this s).
Proof.
  intros Hne.
  destruct (load_body_spec k e s) as [ | |late];
    [| |subst s' w'; destruct late]; simpl.
  - auto.
  - now rewrite cursor_set_slot, slots_set_slot_ne.
  - now rewrite cursor_set_cursor_ne, cursor_set_slot, slots_set_cursor,
      slots_set_slot_ne.
  - now rewrite cursor_set_cursor_ne, cursor_set_slot, slots_set_cursor,
      slots_set_slot_ne.
Qed.

(** A call either runs both loops to their end and creates the render
    targets, or returns from one iteration of one of the loops; a
    property kept by the iterations that fall through holds where that
    happens. *)
Lemma LoadWaterTextures_rule (Inv : Sys G -> Prop) :
  (forall s n, Inv s -> Inv (with_ticks n s)) ->
  (forall k e s s1, Inv s ->
     (cursor k (this s) < capacity k (this s))%nat ->
     (k = Normal -> diffuse_done s) ->
     load_body k e s = Next tt s1 -> Inv s1) ->
  forall s r s', Inv s -> LoadWaterTextures s = (r, s') ->
  (r = RetOk /\
   exists s2, Inv s2 /\ all_loaded (this s2) /\ s' = with_targets s2) \/
  (exists k e s_mid, Inv s_mid /\
     (cursor k (this s_mid) < capacity k (this s_mid))%nat /\
     (k = Normal -> diffuse_done s_mid) /\
     load_body k e s_mid = Exit r s').
Proof.
  intros Hticks Hstep s r s' HI.
  rewrite LoadWaterTextures_eq.
  set (e := (clock s (ticks s) + 100e-3)%Q).
  set (s0 := with_ticks (S (ticks s)) s).
  assert (HI0 : Inv s0) by (apply Hticks; exact HI).
  pose proof (load_class_rule Inv Diffuse e) as R1.
  specialize (R1 ltac:(intros; eapply Hstep; eauto; discriminate) s0 HI0).
  destruct (load_class Diffuse e s0) as [[] s1|r1 s1].
  2:{ intros [= <- <-]. right. destruct R1 as (sm & ? & ? & ?).
      exists Diffuse, e, sm. repeat split; auto; discriminate. }
  destruct R1 as [HI1 Hd1].
  pose proof (load_class_rule (fun s => Inv s /\ diffuse_done s) Normal e)
    as R2.
  assert (Hstep2 : forall sa sb,
            Inv sa /\ diffuse_done sa ->
            (cursor Normal (this sa) < capacity Normal (this sa))%nat ->
            load_body Normal e sa = Next tt sb ->
            Inv sb /\ diffuse_done sb).
  { intros sa sb [Ha Hda] Hc Hb. split; [eapply Hstep; eauto|].
    pose proof (body_other_class Normal Diffuse e sa ltac:(discriminate))
      as [Hcur _].
    pose proof (body_frame Normal e sa) as F.
    rewrite Hb in Hcur, F. cbn [state_of] in Hcur, F.
    unfold diffuse_done. rewrite Hcur, (frame_capacity _ _ F). exact Hda. }
  specialize (R2 Hstep2 s1 (conj HI1 Hd1)).
  destruct (load_class Normal e s1) as [[] s2|r2 s2].
  2:{ intros [= <- <-]. right. destruct R2 as (sm & [? ?] & ? & ?).
      exists Normal, e, sm. repeat split; auto. }
  destruct R2 as [[HI2 Hd2] Hn2].
  intros [= <- <-]. left. split; [reflexivity|].
  exists s2. repeat split; auto.
  intros [|]; assumption.
Qed.

(** ** The shape of the arrays is kept *)

Lemma slots_lookup_set_slot k k' c ht w i :
  slots k' (set_slot k c ht w) !! i
  = if decide (k' = k /\ i = c /\ (c < capacity k w)%nat)
    then Some ht else slots k' w !! i.
Proof.
  destruct (decide (k' = k)) as [->|Hne].
  - rewrite slots_set_slot.
    destruct (decide (i = c)) as [->|Hi].
    + destruct (decide (c < capacity k w)%nat) as [Hc|Hc].
      * rewrite decide_True by auto. now apply list_lookup_insert_eq.
      * rewrite decide_False by tauto.
        rewrite list_insert_ge; [reflexivity|unfold capacity in Hc; lia].
    + rewrite decide_False by tauto. now apply list_lookup_insert_ne.
  - rewrite decide_False by tauto. now rewrite slots_set_slot_ne.
Qed.

Lemma pool_ok_set_slot k ht w :
  pool_ok w ->
  (cursor k w < capacity k w)%nat ->
  0 < ht ->
  (k = Normal -> (capacity Diffuse w <= cursor Diffuse w)%nat) ->
  pool_ok (set_slot k (cursor k w) ht w).
Proof.
  intros [Hcur Hfill Hemp Hres Hord] Hc Hht Hdone. split.
  - intros k'. rewrite cursor_set_slot, capacity_set_slot. apply Hcur.
  - intros k' i h. rewrite cursor_set_slot, slots_lookup_set_slot.
    case_decide as Hd; [destruct Hd as (-> & -> & _); lia|]. apply Hfill.
  - intros k' i h. rewrite cursor_set_slot, slots_lookup_set_slot.
    case_decide as Hd; [destruct Hd as (-> & -> & _); lia|]. apply Hemp.
  - intros k' h. rewrite cursor_set_slot, slots_lookup_set_slot.
    case_decide as Hd; [intros [= <-]; lia|]. apply Hres.
  - rewrite cursor_set_slot, capacity_set_slot. intros Hlt.
    destruct (Hord Hlt) as [Hn Hz]. split; [now rewrite cursor_set_slot|].
    intros i h. rewrite slots_lookup_set_slot.
    case_decide as Hd; [|apply Hz].
    destruct Hd as (<- & _ & _). specialize (Hdone eq_refl). lia.
Qed.

Lemma pool_ok_advance k ht w :
  pool_ok w ->
  (cursor k w < capacity k w)%nat ->
  slots k w !! cursor k w = Some ht ->
  0 < ht ->
  (k = Normal -> (capacity Diffuse w <= cursor Diffuse w)%nat) ->
  pool_ok (set_cursor k (cursor k w + 1) w).
Proof.
  intros [Hcur Hfill Hemp Hres Hord] Hc Hslot Hht Hdone. split.
  - intros k'. rewrite capacity_set_cursor.
    destruct (decide (k' = k)) as [->|Hne].
    + rewrite cursor_set_cursor. lia.
    + rewrite cursor_set_cursor_ne by auto. apply Hcur.
  - intros k' i h. rewrite slots_set_cursor.
    destruct (decide (k' = k)) as [->|Hne].
    + rewrite cursor_set_cursor. intros Hi Hl.
      destruct (decide (i = cursor k w)) as [->|Hi'].
      * congruence.
      * eapply Hfill; [|exact Hl]. lia.
    + rewrite cursor_set_cursor_ne by auto. apply Hfill.
  - intros k' i h. rewrite slots_set_cursor.
    destruct (decide (k' = k)) as [->|Hne].
    + rewrite cursor_set_cursor. intros Hi. apply Hemp. lia.
    + rewrite cursor_set_cursor_ne by auto. apply Hemp.
  - intros k' h. rewrite slots_set_cursor.
    destruct (decide (k' = k)) as [->|Hne].
    + rewrite cursor_set_cursor. intros Hl.
      rewrite (Hemp k (cursor k w + 1)%nat h); [lia|lia|exact Hl].
    + rewrite cursor_set_cursor_ne by auto. apply Hres.
  - rewrite capacity_set_cursor. intros Hlt.
    destruct k.
    + rewrite cursor_set_cursor in Hlt.
      destruct Hord as [Hn Hz]; [lia|].
      split; [now rewrite cursor_set_cursor_ne|].
      intros i h. rewrite slots_set_cursor. apply Hz.
    + rewrite cursor_set_cursor_ne in Hlt by discriminate.
      specialize (Hdone eq_refl). lia.
Qed.

Lemma pool_ok_body k e (s : Sys G) :
  pool_ok (this s) ->
  (cursor k (this s) < capacity k (this s))%nat ->
  (k = Normal -> diffuse_done s) ->
  pool_ok (this (state_of (load_body k e s))).
Proof.
  intros Hok Hc Hdone.
  assert (Hslot : forall ht, 0 < ht ->
            pool_ok (set_slot k (cursor k (this s)) ht (this s)))
    by (intros; now apply pool_ok_set_slot).
  assert (Hadv : forall ht, 0 < ht ->
            pool_ok (set_cursor k (cursor k (this s) + 1)
                       (set_slot k (cursor k (this s)) ht (this s)))).
  { intros ht Hht.
    rewrite <- (cursor_set_slot k k (cursor k (this s)) ht (this s)) at 1.
    apply (pool_ok_advance k ht); auto.
    - now rewrite cursor_set_slot, capacity_set_slot.
    - rewrite cursor_set_slot, slots_lookup_set_slot.
      now rewrite decide_True by auto.
    - intros ->. rewrite cursor_set_slot, capacity_set_slot. now apply Hdone. }
  destruct (load_body_spec k e s) as [ | |late];
    [| |subst s' w'; destruct late]; simpl; auto.
Qed.

Lemma pool_ok_ctor n_tex n_norm : pool_ok (WaterManager_ctor n_tex n_norm).
Proof.
  assert (Hz : forall k i h,
            slots k (WaterManager_ctor n_tex n_norm) !! i = Some h -> h = 0).
  { intros k i h Hl. destruct k; simpl in Hl;
      apply lookup_replicate in Hl; tauto. }
  split.
  - intros []; simpl; lia.
  - intros [] i h Hi; simpl in Hi; lia.
  - intros k i h _. apply Hz.
  - intros k h Hl. apply Hz in Hl. lia.
  - intros _. split; [reflexivity|]. apply Hz.
Qed.

Lemma pool_ok_same_arrays w w' :
  (forall k, slots k w' = slots k w) ->
  (forall k, cursor k w' = cursor k w) ->
  pool_ok w -> pool_ok w'.
Proof.
  intros Hs Hc [Hcur Hfill Hemp Hres Hord].
  assert (Hcap : forall k, capacity k w' = capacity k w)
    by (intros k; unfold capacity; now rewrite Hs).
  split.
  - intros k. rewrite Hc, Hcap. apply Hcur.
  - intros k i h. rewrite Hc, Hs. apply Hfill.
  - intros k i h. rewrite Hc, Hs. apply Hemp.
  - intros k h. rewrite Hc, Hs. apply Hres.
  - rewrite !Hc, Hcap, Hs. apply Hord.
Qed.

Lemma LoadWaterTextures_pool_ok (s : Sys G) :
  pool_ok (this s) -> pool_ok (this (snd (LoadWaterTextures s))).
Proof.
  intros Hok.
  destruct (LoadWaterTextures s) as [r s'] eqn:Hcall.
  destruct (LoadWaterTextures_rule (fun s => pool_ok (this s))
              ltac:(auto)
              ltac:(intros k e sa sb Ha Hc Hd Hb;
                    pose proof (pool_ok_body k e sa Ha Hc Hd) as H;
                    now rewrite Hb in H)
              s r s' Hok Hcall)
    as [(_ & s2 & H2 & _ & ->)|(k & e & sm & Hm & Hc & Hd & Hb)]; simpl.
  - eapply pool_ok_same_arrays; [| |exact H2]; intros []; reflexivity.
  - pose proof (pool_ok_body k e sm Hm Hc Hd) as H. now rewrite Hb in H.
Qed.

Lemma UnloadWaterTextures_pool_ok (s : Sys G) :
  pool_ok (this (UnloadWaterTextures s)).
Proof.
  rewrite UnloadWaterTextures_eq. simpl.
  eapply pool_ok_same_arrays;
    [| |apply (pool_ok_ctor (capacity Diffuse (this s))
                  (capacity Normal (this s)))];
    intros []; reflexivity.
Qed.

Lemma reachable_pool_ok (s : Sys G) : reachable s -> pool_ok (this s).
Proof.
  induction 1.
  - apply pool_ok_ctor.
  - now apply LoadWaterTextures_pool_ok.
  - apply UnloadWaterTextures_pool_ok.
Qed.

Lemma session_reachable (s : Sys G) : session s -> reachable s.
Proof. induction 1; now constructor. Qed.

(** ** After a failed upload *)

Lemma populated_shape (l : list Handle) :
  forall n,
    (n <= length l)%nat ->
    (forall j h, (j < n)%nat -> l !! j = Some h -> h <> 0) ->
    (forall j h, (n <= j)%nat -> l !! j = Some h -> h = 0) ->
    populated l = n.
Proof.
  unfold populated.
  induction l as [|x l IH]; intros n Hn Hfill Hemp; simpl in *.
  - lia.
  - destruct n as [|n].
    + rewrite (Hemp 0%nat x) by (auto; lia). simpl.
      apply (IH 0%nat); [lia| |].
      * intros j h Hj. lia.
      * intros j h _ Hl. apply (Hemp (S j) h); [lia|exact Hl].
    + assert (Hx : x <> 0) by (apply (Hfill 0%nat x); [lia|reflexivity]).
      apply Z.eqb_neq in Hx. rewrite Hx. simpl. f_equal.
      apply IH; [lia| |].
      * intros j h Hj Hl. apply (Hfill (S j) h); [lia|exact Hl].
      * intros j h Hj Hl. apply (Hemp (S j) h); [lia|exact Hl].
Qed.

(** C10.  When a call returns because the upload of the texture loaded
    for cursor value [i] failed, the handle is already in slot [i] of the
    array: the cursor is still [i], the array holds [i + 1] handles, and a
    following [UnloadWaterTextures] passes that handle to
    [ogl_tex_free]. *)
Theorem upload_failure_leaves_handle_in_slot (s s' : Sys G) (err : Z) :
  reachable s ->
  LoadWaterTextures s = (RetErr err, s') ->
  exists k ht filename before,
    let i := cursor k (this s') in
    trace s' = before ++ [EvLoad k i filename ht; EvUpload k i ht err] /\
    0 < ht /\ err < 0 /\
    slots k (this s') !! i = Some ht /\
    populated (slots k (this s')) = (i + 1)%nat /\
    exists t1 t2,
      trace (UnloadWaterTextures s') = trace s' ++ t1 ++ EvFree ht :: t2.
Proof.
  intros Hreach Hcall.
  pose proof (reachable_pool_ok _ (reachable_load s Hreach)) as Hok'.
  rewrite Hcall in Hok'. simpl in Hok'.
  destruct (LoadWaterTextures_rule (fun s => pool_ok (this s))
              ltac:(auto)
              ltac:(intros k e sa sb Ha Hc Hd Hb;
                    pose proof (pool_ok_body k e sa Ha Hc Hd) as H;
                    now rewrite Hb in H)
              s _ s' (reachable_pool_ok s Hreach) Hcall)
    as [(Hr & _)|(k & e & sm & Hm & Hc & Hd & Hb)]; [discriminate|].
  pose proof (load_body_spec k e sm) as Hs. rewrite Hb in Hs.
  inversion Hs as [ |ht g1 err' g2 Hl Hht Hu Herr [Hr Hs']
                   |late ht g1 st g2 Hl Hht Hu Hst Hlate w' s2 Hfl ];
    [|destruct late; discriminate].
  subst. clear Hs. cbn [this trace] in *.
  set (w' := set_slot k (cursor k (this sm)) ht (this sm)) in *.
  assert (Hcur : cursor k w' = cursor k (this sm))
    by apply cursor_set_slot.
  assert (Hslot : slots k w' !! cursor k w' = Some ht).
  { rewrite Hcur. unfold w'. rewrite slots_lookup_set_slot.
    now rewrite decide_True by auto. }
  exists k, ht, (request_name k sm), (trace sm).
  cbv zeta. rewrite Hcur at 1 2.
  split; [reflexivity|].
  split; [exact Hht|]. split; [exact Herr|]. split; [exact Hslot|]. split.
  - apply populated_shape.
    + apply lookup_lt_Some in Hslot. lia.
    + intros j h Hj Hlk.
      destruct (decide (j = cursor k w')) as [->|Hne].
      * pose proof (eq_trans (eq_sym Hlk) Hslot) as Heq.
        injection Heq as ->. lia.
      * assert (0 < h); [|lia].
        apply (pool_filled _ Hok' k j h); [lia|exact Hlk].
    + intros j h Hj Hlk.
      apply (pool_empty _ Hok' k j h); [lia|exact Hlk].
  - rewrite UnloadWaterTextures_eq. cbn [this trace].
    apply list_elem_of_lookup_2 in Hslot.
    assert (Hin : ht ∈ m_WaterTexture w' ++ m_NormalMap w').
    { apply elem_of_app. destruct k; [left|right]; exact Hslot. }
    apply list_elem_of_split in Hin as (l1 & l2 & ->).
    exists (map EvFree l1), (map EvFree l2).
    rewrite map_app. reflexivity.
Qed.

(** ** Order of the requests *)

Lemma snoc2_split {A} (t pre post : list A) e1 e2 x :
  t ++ [e1; e2] = pre ++ x :: post ->
  (exists post', t = pre ++ x :: post' /\ post = post' ++ [e1; e2]) \/
  (pre = t /\ x = e1 /\ post = [e2]) \/
  (pre = t ++ [e1] /\ x = e2 /\ post = []).
Proof.
  intros H. apply app_eq_app in H as [l [[Ht Hl]|[Hp Hl]]].
  - destruct l as [|y l]; simpl in Hl.
    + injection Hl as -> ->. right; left. rewrite app_nil_r in Ht. auto.
    + injection Hl as -> ->. left. eauto.
  - destruct l as [|a [|b l]]; simpl in Hl.
    + injection Hl as <- <-. right; left. rewrite app_nil_r in Hp. auto.
    + injection Hl as <- <- <-. right; right. auto.
    + injection Hl as _ _ Hl. destruct l; discriminate.
Qed.

Lemma completed_app k t1 t2 :
  completed k (t1 ++ t2) = completed k t1 ++ completed k t2.
Proof. apply omap_app. Qed.

Lemma trace_ok_nil n : trace_ok n [].
Proof.
  split; intros; exfalso; eapply app_cons_not_nil; eauto.
Qed.

(** One more attempt at index [c] of class [k]: a load, followed by the
    log entry of its failure or by the upload of the handle. *)
Lemma trace_ok_attempt n t k c f ht e2 :
  trace_ok n t ->
  completed k t = seq 0 c ->
  (k = Normal -> completed Diffuse t = seq 0 n) ->
  (e2 = EvLog f \/ exists status, e2 = EvUpload k c ht status /\ 0 < ht) ->
  trace_ok n (t ++ [EvLoad k c f ht; e2]).
Proof.
  intros [Hreq Hnorm Hup] Hk Hd He2. split.
  - intros pre k' i f' h' post H.
    apply snoc2_split in H as [(post' & H & _)|[(-> & H & _)|(_ & H & _)]].
    + eapply Hreq; eauto.
    + injection H as -> -> _ _. exact Hk.
    + destruct He2 as [->|(st & -> & _)]; discriminate.
  - intros pre i f' h' post H.
    apply snoc2_split in H as [(post' & H & _)|[(-> & H & _)|(_ & H & _)]].
    + eapply Hnorm; eauto.
    + injection H as <- _ _ _. now apply Hd.
    + destruct He2 as [->|(st & -> & _)]; discriminate.
  - intros pre k' i h' st' post H.
    apply snoc2_split in H as [(post' & H & _)|[(_ & H & _)|(-> & H & _)]].
    + eapply Hup; eauto.
    + discriminate.
    + destruct He2 as [->|(st & -> & Hht)]; [discriminate|].
      injection H as -> -> -> _. split; [exact Hht|]. eauto.
Qed.

Lemma session_ok_body k e (s : Sys G) :
  session_ok s ->
  (cursor k (this s) < capacity k (this s))%nat ->
  (k = Normal -> diffuse_done s) ->
  session_ok (state_of (load_body k e s)) /\
  m_RenderWater (this s) = false.
Proof.
  intros [Hpool Hflag Htr Hcomp] Hc Hdone.
  assert (Hoff : m_RenderWater (this s) = false).
  { destruct (m_RenderWater (this s)); [|reflexivity].
    specialize (Hflag eq_refl k). lia. }
  split; [|exact Hoff].
  pose proof (pool_ok_body k e s Hpool Hc Hdone) as Hpool'.
  pose proof (body_frame k e s) as F.
  assert (Hdiff : k = Normal ->
            completed Diffuse (trace s) = seq 0 (capacity Diffuse (this s))).
  { intros Hk. rewrite Hcomp. f_equal.
    specialize (Hdone Hk). unfold diffuse_done in Hdone.
    pose proof (pool_cursor _ Hpool Diffuse). lia. }
  split.
  - exact Hpool'.
  - rewrite (frame_flag _ _ F), Hoff. discriminate.
  - rewrite (frame_capacity _ _ F).
    destruct (load_body_spec k e s) as [ht g1 Hl Hht|ht g1 err g2 Hl Hht Hu Herr
         |late ht g1 st g2 Hl Hht Hu Hst Hlate w' s'];
      [| |subst s' w'; destruct late]; simpl;
      apply trace_ok_attempt; eauto.
  - intros k'.
    destruct (load_body_spec k e s) as [ht g1 Hl Hht|ht g1 err g2 Hl Hht Hu Herr
         |late ht g1 st g2 Hl Hht Hu Hst Hlate w' s'];
      [| |assert (Hs' : this s' = w' /\ trace s' =
             trace s ++ [EvLoad k (cursor k (this s)) (request_name k s) ht;
                         EvUpload k (cursor k (this s)) ht st])
            by (split; reflexivity);
          destruct Hs' as [Hw Ht];
          assert (Hgoal : completed k' (trace s') = seq 0 (cursor k' (this s')));
          [rewrite Hw, Ht; subst w'|destruct late; exact Hgoal]];
      simpl; rewrite completed_app, Hcomp; simpl.
    + now rewrite app_nil_r.
    + rewrite cursor_set_slot.
      case_decide; [|now rewrite app_nil_r].
      destruct (Z.leb_spec 0 err); [lia|]. now rewrite app_nil_r.
    + destruct (decide (k = k')) as [->|Hne].
      * rewrite cursor_set_cursor.
        destruct (Z.leb_spec 0 st); [|lia].
        now rewrite Nat.add_1_r, seq_S.
      * rewrite cursor_set_cursor_ne, cursor_set_slot by auto.
        now rewrite app_nil_r.
Qed.

Lemma session_ok_step k e (sa sb : Sys G) :
  session_ok sa ->
  (cursor k (this sa) < capacity k (this sa))%nat ->
  (k = Normal -> diffuse_done sa) ->
  load_body k e sa = Next tt sb ->
  session_ok sb.
Proof.
  intros Ha Hc Hd Hb.
  pose proof (session_ok_body k e sa Ha Hc Hd) as [H _].
  now rewrite Hb in H.
Qed.

Lemma session_ok_with_ticks (s : Sys G) n :
  session_ok s -> session_ok (with_ticks n s).
Proof. intros []; split; assumption. Qed.

Lemma session_ok_with_targets (s : Sys G) :
  session_ok s -> all_loaded (this s) -> session_ok (with_targets s).
Proof.
  intros [Hpool Hflag Htr Hcomp] Hall. split.
  - eapply pool_ok_same_arrays; [| |exact Hpool]; intros []; reflexivity.
  - intros _ k. specialize (Hall k). destruct k; exact Hall.
  - exact Htr.
  - intros k. change (trace (with_targets s)) with (trace s).
    rewrite (Hcomp k). destruct k; reflexivity.
Qed.

Lemma session_ok_fresh n_tex n_norm (g : G) height path_max clk :
  session_ok (fresh n_tex n_norm g height path_max clk).
Proof.
  split; simpl.
  - apply pool_ok_ctor.
  - discriminate.
  - apply trace_ok_nil.
  - intros []; reflexivity.
Qed.

Lemma session_ok_call (s : Sys G) :
  session_ok s -> session_ok (snd (LoadWaterTextures s)).
Proof.
  intros Hok.
  destruct (LoadWaterTextures s) as [r s'] eqn:Hcall.
  destruct (LoadWaterTextures_rule session_ok
              ltac:(intros; now apply session_ok_with_ticks)
              session_ok_step s r s' Hok Hcall)
    as [(_ & s2 & H2 & Hall & ->)|(k & e & sm & Hm & Hc & Hd & Hb)]; simpl.
  - now apply session_ok_with_targets.
  - pose proof (session_ok_body k e sm Hm Hc Hd) as [H _].
    now rewrite Hb in H.
Qed.

Lemma session_session_ok (s : Sys G) : session s -> session_ok s.
Proof.
  induction 1; [apply session_ok_fresh|now apply session_ok_call].
Qed.

(** A call that does not reach the end leaves alone what the loops leave
    alone. *)
Lemma LoadWaterTextures_frame (s s' : Sys G) r :
  LoadWaterTextures s = (r, s') -> r <> RetOk -> frame s s'.
Proof.
  rewrite LoadWaterTextures_eq.
  set (e := (clock s (ticks s) + 100e-3)%Q).
  set (s0 := with_ticks (S (ticks s)) s).
  pose proof (load_class_frame Diffuse e s0) as F1.
  destruct (load_class Diffuse e s0) as [[] s1|r1 s1].
  2:{ intros [= <- <-] _. eapply frame_trans; [apply frame_with_ticks|].
      exact F1. }
  pose proof (load_class_frame Normal e s1) as F2.
  destruct (load_class Normal e s1) as [[] s2|r2 s2].
  - intros [= <- _] H. now destruct H.
  - intros [= <- <-] _. eapply frame_trans; [apply frame_with_ticks|].
    eapply frame_trans; eauto.
Qed.

(** ** Failures *)



(** C7, as the code has it.  In a load session: a normal map is asked
    for only after the diffuse textures of every index have been
    completed, a completion being a successful upload that directly
    follows the successful load of its handle; every request of a class is for the
    index equal to the number of textures of that class completed so
    far.  So of two requests of one class the later has the index of the
    earlier plus the number of completions in between: the indices never
    decrease, and an index is asked for again exactly when nothing of
    the class was completed in between (the earlier attempt failed). *)
Theorem requests_follow_cursors (s : Sys G) :
  session s ->
  let t := trace s in
  (forall pre i f h post,
     t = pre ++ EvLoad Normal i f h :: post ->
     completed Diffuse pre = seq 0 (capacity Diffuse (this s))) /\
  (forall pre k i h status post,
     t = pre ++ EvUpload k i h status :: post ->
     0 < h /\ exists pre' f, pre = pre' ++ [EvLoad k i f h]) /\
  (forall pre k i f h post,
     t = pre ++ EvLoad k i f h :: post -> completed k pre = seq 0 i) /\
  (forall pre k i f h mid j f' h' post,
     t = pre ++ EvLoad k i f h :: mid ++ EvLoad k j f' h' :: post ->
     j = (i + length (completed k mid))%nat /\ (i <= j)%nat).
Proof.
  intros Hsess t.
  destruct (session_session_ok s Hsess) as [_ _ [Hreq Hnorm Hup] _].
  fold t in Hreq, Hnorm, Hup.
  split; [exact Hnorm|]. split; [exact Hup|]. split; [exact Hreq|].
  intros pre k i f h mid j f' h' post Ht.
  pose proof (Hreq pre k i f h _ Ht) as Hi.
  rewrite app_comm_cons, app_assoc in Ht.
  pose proof (Hreq _ k j f' h' _ Ht) as Hj.
  rewrite completed_app, Hi in Hj. simpl in Hj.
  apply (f_equal length) in Hj.
  rewrite length_app, !length_seq in Hj. lia.
Qed.

(** ** Resuming after a timeout *)

Lemma same_work_refl (s : Sys G) : same_work s s.
Proof. repeat split. Qed.

Lemma same_work_sym (s u : Sys G) : same_work s u -> same_work u s.
Proof. intros (? & ? & ? & ? & ? & ?). repeat split; auto. Qed.

Lemma same_work_trans (s1 s2 s3 : Sys G) :
  same_work s1 s2 -> same_work s2 s3 -> same_work s1 s3.
Proof.
  intros (? & ? & ? & ? & ? & ?) (? & ? & ? & ? & ? & ?).
  repeat split; congruence.
Qed.

(** An iteration does the same work on any clock; on a clock on which
    the deadline does not pass it falls through where another clock may
    make it return for lack of time. *)
Lemma body_sim k e e' (s u : Sys G) :
  same_work s u ->
  Qle_bool (clock u (ticks u)) e' = true ->
  match load_body k e s with
  | Next _ s1 | Exit (RetTimeout _ _) s1 =>
      exists u1, load_body k e' u = Next tt u1 /\
                 same_work s1 u1 /\ clock u1 = clock u
  | Exit r s1 =>
      exists u1, load_body k e' u = Exit r u1 /\ same_work s1 u1
  end.
Proof.
  intros (Hthis & Hhost & Hgl & Hh & Hp & Htr) Hontime.
  destruct s as [w g glS h p cS nS tS], u as [w' g' glU h' p' cU nU tU].
  simpl in *. subst w' g' glU h' p' tU.
  unfold load_body, bind, gets, call_ogl_tex_load, LOG_ERROR, modify,
    return_, RETURN_ERR, bind, call_ogl_tex_upload, ret, LDR_CHECK_TIMEOUT,
    get_time, emit, with_host, with_this, with_ticks; cbn -[Qle_bool].
  destruct (ogl_tex_load _ g) as [ht g1].
  destruct (ht <=? 0).
  - eexists; split; [reflexivity|]. repeat split.
  - cbn -[Qle_bool]. destruct (ogl_tex_upload ht g1) as [st g2].
    destruct (st <? 0).
    + eexists; split; [reflexivity|]. repeat split.
    + cbn -[Qle_bool]. rewrite Hontime.
      destruct (Qle_bool (cS nS) e);
        (eexists; split; [reflexivity|]); repeat split.
Qed.

Lemma load_class_step k e (s : Sys G) :
  (cursor k (this s) < capacity k (this s))%nat ->
  load_class k e s
  = match load_body k e s with
    | Next _ s1 => load_class k e s1
    | Exit r s' => Exit r s'
    end.
Proof.
  intros Hc. unfold load_class.
  destruct (capacity k (this s) - cursor k (this s))%nat as [|m] eqn:Hm;
    [lia|].
  simpl. apply Nat.ltb_lt in Hc as Hc'. rewrite Hc'.
  pose proof (load_body_spec k e s) as Hs.
  destruct (load_body k e s) as [[] s1|r s1]; [|reflexivity].
  inversion Hs as [ | | late ht g1 st g2 Hl Hht Hu Hst Hlate w' s2 Hfl ].
  destruct late; inversion Hfl. subst w'. simpl.
  rewrite capacity_set_cursor, capacity_set_slot, cursor_set_cursor.
  f_equal. lia.
Qed.

Lemma on_time_frame e' (u u1 : Sys G) :
  clock u1 = clock u -> on_time e' u -> on_time e' u1.
Proof. intros Hc H n. rewrite Hc. apply H. Qed.

(** A loop does the same work on any clock: where it falls through or
    fails, the loop on a clock that is never late does the same; where
    it returns for lack of time, the loop on that clock passes through
    the state it stops in. *)
Lemma load_class_sim k e e' (s : Sys G) :
  forall u, same_work s u -> on_time e' u ->
  match load_class k e s with
  | Next _ s1 =>
      exists u1, load_class k e' u = Next tt u1 /\
                 same_work s1 u1 /\ clock u1 = clock u
  | Exit (RetTimeout _ _) s1 =>
      exists u1, load_class k e' u = load_class k e' u1 /\
                 same_work s1 u1 /\ clock u1 = clock u
  | Exit r s1 =>
      exists u1, load_class k e' u = Exit r u1 /\ same_work s1 u1
  end.
Proof.
  pattern s, (load_class k e s). apply load_class_elim.
  - intros s0 Hc u Hw Ht. exists u.
    rewrite load_class_done by (destruct Hw as [<- _]; exact Hc).
    auto.
  - intros s0 r s' Hc Hb u Hw Ht.
    pose proof (body_sim k e e' s0 u Hw (Ht _)) as Hsim.
    rewrite Hb in Hsim.
    rewrite (load_class_step k e' u) by (destruct Hw as [<- _]; exact Hc).
    destruct r; destruct Hsim as (u1 & -> & Hsim); eauto.
  - intros s0 s1 fl Hc Hb IH u Hw Ht.
    pose proof (body_sim k e e' s0 u Hw (Ht _)) as Hsim.
    rewrite Hb in Hsim. destruct Hsim as (u1 & Hb' & Hw1 & Hc1).
    rewrite (load_class_step k e' u) by (destruct Hw as [<- _]; exact Hc).
    rewrite Hb'.
    specialize (IH u1 Hw1 (on_time_frame e' u u1 Hc1 Ht)).
    assert (Hclk : forall u2 : Sys G,
              clock u2 = clock u1 -> clock u2 = clock u)
      by (intros; congruence).
    destruct fl as [[] s2|[] s2];
      first [ destruct IH as (u2 & ? & ? & ?); exists u2;
              split; [assumption|split; [assumption|now apply Hclk]]
            | destruct IH as (u2 & ? & ?); exists u2;
              split; assumption ].
Qed.

Lemma remaining_body k e (s : Sys G) :
  (cursor k (this s) < capacity k (this s))%nat ->
  match load_body k e s with
  | Next _ s1 | Exit (RetTimeout _ _) s1 =>
      (remaining (this s1) < remaining (this s))%nat
  | Exit _ s1 => remaining (this s1) = remaining (this s)
  end.
Proof.
  intros Hc. unfold remaining.
  destruct (load_body_spec k e s) as [ | |late];
    [| |subst s' w'; destruct late]; simpl this.
  - reflexivity.
  - now rewrite !cursor_set_slot, !capacity_set_slot.
  - rewrite !capacity_set_cursor, !capacity_set_slot.
    destruct k.
    + rewrite cursor_set_cursor, cursor_set_cursor_ne, cursor_set_slot
        by discriminate. lia.
    + rewrite cursor_set_cursor, cursor_set_cursor_ne, cursor_set_slot
        by discriminate. lia.
  - rewrite !capacity_set_cursor, !capacity_set_slot.
    destruct k.
    + rewrite cursor_set_cursor, cursor_set_cursor_ne, cursor_set_slot
        by discriminate. lia.
    + rewrite cursor_set_cursor, cursor_set_cursor_ne, cursor_set_slot
        by discriminate. lia.
Qed.

Lemma remaining_load_class k e (s : Sys G) :
  match load_class k e s with
  | Exit (RetTimeout _ _) s1 =>
      (remaining (this s1) < remaining (this s))%nat
  | Next _ s1 | Exit _ s1 =>
      (remaining (this s1) <= remaining (this s))%nat
  end.
Proof.
  pattern s, (load_class k e s). apply load_class_elim.
  - intros; lia.
  - intros s0 r s' Hc Hb. pose proof (remaining_body k e s0 Hc) as H.
    rewrite Hb in H. destruct r; lia.
  - intros s0 s1 fl Hc Hb IH. pose proof (remaining_body k e s0 Hc) as H.
    rewrite Hb in H. destruct fl as [[] s2|[] s2]; lia.
Qed.

(** A call that returns for lack of time has loaded at least one
    texture. *)
Lemma LoadWaterTextures_timeout_progress (s s' : Sys G) a b :
  LoadWaterTextures s = (RetTimeout a b, s') ->
  (remaining (this s') < remaining (this s))%nat.
Proof.
  rewrite LoadWaterTextures_eq.
  set (e := (clock s (ticks s) + 100e-3)%Q).
  set (s0 := with_ticks (S (ticks s)) s).
  change (remaining (this s)) with (remaining (this s0)).
  pose proof (remaining_load_class Diffuse e s0) as R1.
  destruct (load_class Diffuse e s0) as [[] s1|r1 s1].
  2:{ intros [= -> ->]. exact R1. }
  pose proof (remaining_load_class Normal e s1) as R2.
  destruct (load_class Normal e s1) as [[] s2|r2 s2].
  - discriminate.
  - intros [= -> ->]. lia.
Qed.

Lemma load_class_other_cursor k k' e (s : Sys G) :
  k' <> k ->
  cursor k' (this (state_of (load_class k e s))) = cursor k' (this s).
Proof.
  intros Hne. pattern s, (load_class k e s). apply load_class_elim.
  - reflexivity.
  - intros s0 r s' _ Hb.
    pose proof (body_other_class k k' e s0 Hne) as [H _].
    now rewrite Hb in H.
  - intros s0 s1 fl _ Hb IH.
    pose proof (body_other_class k k' e s0 Hne) as [H _].
    rewrite Hb in H. simpl in H. congruence.
Qed.

Lemma LoadWaterTextures_both_loops (s : Sys G) :
  LoadWaterTextures s =
  match both_loops (clock s (ticks s) + 100e-3)%Q
          (with_ticks (S (ticks s)) s) with
  | Next _ s2 => (RetOk, with_targets s2)
  | Exit r s' => (r, s')
  end.
Proof.
  rewrite LoadWaterTextures_eq. unfold both_loops, bind.
  destruct (load_class Diffuse _ _) as [[] s1|]; reflexivity.
Qed.

(** The two loops together do the same work on any clock. *)
Lemma both_loops_sim e e' (s u : Sys G) :
  same_work s u -> on_time e' u ->
  match both_loops e s with
  | Next _ s1 =>
      exists u1, both_loops e' u = Next tt u1 /\ same_work s1 u1
  | Exit (RetTimeout _ _) s1 =>
      exists u1, both_loops e' u = both_loops e' u1 /\
                 same_work s1 u1 /\ clock u1 = clock u
  | Exit r s1 =>
      exists u1, both_loops e' u = Exit r u1 /\ same_work s1 u1
  end.
Proof.
  intros Hw Ht. unfold both_loops, bind.
  pose proof (load_class_sim Diffuse e e' s u Hw Ht) as S1.
  pose proof (load_class_exit Diffuse e s) as X1.
  destruct (load_class Diffuse e s) as [[] s1|r s1].
  - destruct S1 as (u1 & -> & Hw1 & Hc1).
    specialize (X1 s1 eq_refl).
    pose proof (load_class_sim Normal e e' s1 u1 Hw1
                  (on_time_frame e' u u1 Hc1 Ht)) as S2.
    pose proof (load_class_other_cursor Normal Diffuse e s1
                  ltac:(discriminate)) as O2.
    pose proof (load_class_frame Normal e s1) as F2.
    destruct (load_class Normal e s1) as [[] s2|r s2].
    + destruct S2 as (u2 & -> & Hw2 & _). eauto.
    + cbn [state_of] in O2, F2.
      destruct r; destruct S2 as (u2 & -> & Hw2); eauto.
      destruct Hw2 as [Hw2 Hc2]. exists u2.
      rewrite (load_class_done Diffuse e' u2).
      * split; [reflexivity|split; [exact Hw2|congruence]].
      * destruct Hw2 as [<- _].
        rewrite O2, (frame_capacity _ _ F2). exact X1.
  - destruct r; destruct S1 as (u1 & -> & Hw1); eauto.
Qed.

Lemma same_work_with_targets (s u : Sys G) :
  same_work s u -> same_work (with_targets s) (with_targets u).
Proof.
  intros (Hthis & Hhost & Hgl & Hh & Hp & Htr).
  destruct s, u; simpl in *; subst.
  repeat split.
Qed.

Lemma never_late_on_time (u : Sys G) n :
  clock u = never_late -> on_time (clock u n + 100e-3)%Q u.
Proof. intros Hc m. rewrite Hc. reflexivity. Qed.

(** One call on any clock against the uninterrupted call: it finishes
    with the same work done, or stops for lack of time in a state from
    which the uninterrupted call finishes with the same work done. *)
Lemma call_sim (s u u1 : Sys G) :
  same_work s u ->
  clock u = never_late ->
  LoadWaterTextures u = (RetOk, u1) ->
  (exists s1, LoadWaterTextures s = (RetOk, s1) /\ same_work s1 u1) \/
  (exists a b s' u1',
     LoadWaterTextures s = (RetTimeout a b, s') /\
     LoadWaterTextures (with_clock never_late s') = (RetOk, u1') /\
     same_work u1' u1).
Proof.
  intros Hw Hclk Hu.
  rewrite LoadWaterTextures_both_loops in Hu.
  rewrite LoadWaterTextures_both_loops.
  set (e := (clock s (ticks s) + 100e-3)%Q).
  set (e' := (clock u (ticks u) + 100e-3)%Q) in *.
  set (s0 := with_ticks (S (ticks s)) s).
  set (u0 := with_ticks (S (ticks u)) u) in *.
  assert (Ht0 : on_time e' u0)
    by (apply (never_late_on_time u (ticks u) Hclk)).
  pose proof (both_loops_sim e e' s0 u0 Hw Ht0) as S.
  destruct (both_loops e s0) as [[] s2|r s2].
  - destruct S as (u2 & Hb & Hw2). rewrite Hb in Hu.
    injection Hu as <-. left. exists (with_targets s2).
    split; [reflexivity|]. now apply same_work_with_targets.
  - destruct r as [ht|err|a b|].
    + destruct S as (u2 & Hb & _). rewrite Hb in Hu. discriminate.
    + destruct S as (u2 & Hb & _). rewrite Hb in Hu. discriminate.
    + destruct S as (ux & Hb & Hwx & Hcx). rewrite Hb in Hu.
      right. exists a, b, s2.
      set (q := with_clock never_late s2).
      assert (Hq : LoadWaterTextures q =
                   match both_loops e' (with_ticks (S (ticks q)) q) with
                   | Next _ q2 => (RetOk, with_targets q2)
                   | Exit r q' => (r, q')
                   end).
      { rewrite LoadWaterTextures_both_loops. subst e'. rewrite Hclk.
        reflexivity. }
      assert (Htq : on_time e' (with_ticks (S (ticks q)) q)).
      { intros m. subst e'. rewrite Hclk. reflexivity. }
      pose proof (both_loops_sim e' e' ux (with_ticks (S (ticks q)) q)
                    (same_work_sym _ _ Hwx) Htq) as Sq.
      destruct (both_loops e' ux) as [[] un|r un]; [|].
      * destruct Sq as (q2 & Hbq & Hwq). injection Hu as <-.
        exists (with_targets q2). rewrite Hq, Hbq.
        split; [reflexivity|split; [reflexivity|]].
        apply same_work_with_targets, same_work_sym, Hwq.
      * injection Hu as -> _.
        destruct Sq as (q2 & Hbq & _). exfalso.
        clear -Hb. unfold both_loops, bind in Hb.
        destruct (load_class Diffuse e' u0) as [[] ud|r ud] eqn:Hd.
        -- now apply load_class_not_ok in Hb.
        -- injection Hb as -> ->. now apply load_class_not_ok in Hd.
    + destruct S as (u2 & Hb & _). exfalso.
      clear -Hb Hu. rewrite Hb in Hu. clear Hu.
      unfold both_loops, bind in Hb.
      destruct (load_class Diffuse e' u0) as [[] ud|r ud] eqn:Hd.
      * now apply load_class_not_ok in Hb.
      * injection Hb as -> ->. now apply load_class_not_ok in Hd.
Qed.

Lemma resume_aux m :
  forall (s u1 : Sys G),
    (remaining (this s) <= m)%nat ->
    LoadWaterTextures (with_clock never_late s) = (RetOk, u1) ->
    exists n, (n <= m)%nat /\
      (forall j, (j < n)%nat ->
         exists a b, fst (LoadWaterTextures (calls j s)) = RetTimeout a b) /\
      fst (LoadWaterTextures (calls n s)) = RetOk /\
      same_work (snd (LoadWaterTextures (calls n s))) u1.
Proof.
  assert (Hdone : forall (s s1 u1 : Sys G) m',
            LoadWaterTextures s = (RetOk, s1) -> same_work s1 u1 ->
            exists n, (n <= m')%nat /\
              (forall j, (j < n)%nat ->
                 exists a b,
                   fst (LoadWaterTextures (calls j s)) = RetTimeout a b) /\
              fst (LoadWaterTextures (calls n s)) = RetOk /\
              same_work (snd (LoadWaterTextures (calls n s))) u1).
  { intros s s1 u1 m' Hs Hw. exists 0%nat. simpl. rewrite Hs.
    split; [lia|]. split; [intros; lia|]. split; [reflexivity|exact Hw]. }
  induction m as [|m IH]; intros s u1 Hm Hu.
  - destruct (call_sim s (with_clock never_late s) u1
                (same_work_refl s) eq_refl Hu)
      as [(s1 & Hs & Hw)|(a & b & s' & u1' & Hs & Hu' & Hw)].
    + eapply Hdone; eauto.
    + pose proof (LoadWaterTextures_timeout_progress s s' a b Hs). lia.
  - destruct (call_sim s (with_clock never_late s) u1
                (same_work_refl s) eq_refl Hu)
      as [(s1 & Hs & Hw)|(a & b & s' & u1' & Hs & Hu' & Hw)].
    + eapply Hdone; eauto.
    + pose proof (LoadWaterTextures_timeout_progress s s' a b Hs) as Hlt.
      destruct (IH s' u1' ltac:(lia) Hu') as (n & Hn & Htime & Hok & Hw').
      exists (S n). simpl calls. rewrite Hs. simpl snd.
      split; [lia|]. split; [|split; [exact Hok|]].
      * intros [|j] Hj; simpl calls.
        -- rewrite Hs. eauto.
        -- rewrite Hs. apply Htime. lia.
      * eapply same_work_trans; eauto.
Qed.

(** C8.  Let the uninterrupted call (on a clock on which the deadline
    never passes) load everything from state [s] without a failure.
    Then on any clock, so for any budget and wherever the calls are cut
    short, calling again after each return for lack of time ends, after
    at most one such return per texture still to load, with a call
    that returns 0 and leaves the same arrays (the same handles at the
    same indices), cursors, render targets, texture library and trace of
    requests as the uninterrupted call. *)
Theorem resuming_equals_uninterrupted_load (s u1 : Sys G) :
  LoadWaterTextures (with_clock never_late s) = (RetOk, u1) ->
  exists n, (n <= remaining (this s))%nat /\
    (forall j, (j < n)%nat ->
       exists a b, fst (LoadWaterTextures (calls j s)) = RetTimeout a b) /\
    fst (LoadWaterTextures (calls n s)) = RetOk /\
    let s_end := snd (LoadWaterTextures (calls n s)) in
    m_WaterTexture (this s_end) = m_WaterTexture (this u1) /\
    m_NormalMap (this s_end) = m_NormalMap (this u1) /\
    this s_end = this u1 /\
    host s_end = host u1 /\
    gl s_end = gl u1 /\
    trace s_end = trace u1.
Proof.
  intros Hu.
  destruct (resume_aux (remaining (this s)) s u1 (le_n _) Hu)
    as (n & Hn & Htime & Hok & (Hthis & Hhost & Hgl & _ & _ & Htr)).
  exists n. cbv zeta. rewrite Hthis. auto 10.
Qed.

(** * Further properties of the loader *)

(** ** What a call that does not finish leaves alone *)

(** A load that makes the call return has given no handle. *)
Lemma failed_load_handle (s s' : Sys G) ht :
  LoadWaterTextures s = (RetLoadFailed ht, s') -> ht <= 0.
Proof.
  intros Hcall.
  destruct (LoadWaterTextures_rule (fun _ => True)
              ltac:(auto) ltac:(auto) s _ s' I Hcall)
    as [(Hr & _)|(k & e & sm & _ & _ & _ & Hb)]; [discriminate|].
  pose proof (load_body_spec k e sm) as Hs. rewrite Hb in Hs.
  inversion Hs as [ht' g1 Hl Hht [Hr Hs']
                  |ht' g1 err g2 Hl Hht Hu Herr [Hr Hs']
                  |late ht' g1 st g2 Hl Hht Hu Hst Hlate w' s2 Hfl ].
  - exact Hht.
  - destruct late; discriminate.
Qed.

(** A call that does not reach the end of the function (it returns from
    a failed load, from a failed upload or for lack of time) has not
    touched the GL context, the render-target names and sizes or the
    readiness flag; a call that reaches the end has set the flag.  So
    [LoadWaterTextures] never clears the flag.  The value the caller
    receives does not tell the two apart: it is 0 after a call that
    reached the end, and also after a failed load whose handle is 0 as
    an [int]. *)
Theorem unfinished_call_leaves_targets_alone (s s' : Sys G) (r : Ret) :
  LoadWaterTextures s = (r, s') ->
  (r <> RetOk ->
   gl s' = gl s /\
   m_RenderWater (this s') = m_RenderWater (this s) /\
   m_ReflectionTexture (this s') = m_ReflectionTexture (this s) /\
   m_RefractionTexture (this s') = m_RefractionTexture (this s) /\
   m_ReflectionTextureSize (this s') = m_ReflectionTextureSize (this s) /\
   m_RefractionTextureSize (this s') = m_RefractionTextureSize (this s)) /\
  (r = RetOk -> m_RenderWater (this s') = true) /\
  (m_RenderWater (this s) = true -> m_RenderWater (this s') = true) /\
  (return_value r = Some 0 ->
   r = RetOk \/
   exists ht, r = RetLoadFailed ht /\ ht <= 0 /\ int_of ht = 0).
Proof.
  intros Hcall.
  assert (Hne : r <> RetOk -> frame s s')
    by (now apply LoadWaterTextures_frame).
  assert (Hok : r = RetOk -> m_RenderWater (this s') = true).
  { intros ->. destruct (LoadWaterTextures_ok s s' Hcall) as (s2 & -> & _).
    reflexivity. }
  split; [|split; [exact Hok|split]].
  - intros H. destruct (Hne H). auto 10.
  - intros Hon.
    destruct r;
      try (rewrite (frame_flag _ _ (Hne ltac:(discriminate)));
           exact Hon).
    now apply Hok.
  - destruct r as [ht|err|a b|]; cbn [return_value]; intros Hv;
      try discriminate; [right|now left].
    exists ht. split; [reflexivity|].
    split; [exact (failed_load_handle s s' ht Hcall)|congruence].
Qed.

(** ** Cursors and completed slots *)

Lemma never_rewound_refl (s : Sys G) : never_rewound s s.
Proof. intros k. auto. Qed.

Lemma never_rewound_trans (s1 s2 s3 : Sys G) :
  never_rewound s1 s2 -> never_rewound s2 s3 -> never_rewound s1 s3.
Proof.
  intros H12 H23 k.
  destruct (H12 k) as (Hc1 & Hn1 & Hs1), (H23 k) as (Hc2 & Hn2 & Hs2).
  split; [lia|]. split; [congruence|].
  intros i Hi. rewrite Hs2 by lia. now apply Hs1.
Qed.

Lemma never_rewound_body k e (s : Sys G) :
  never_rewound s (state_of (load_body k e s)).
Proof.
  intros k'.
  pose proof (body_frame k e s) as F.
  split; [|split; [apply (frame_capacity _ _ F)|]].
  - destruct (load_body_spec k e s) as [ | |late];
      [| |subst s' w'; destruct late]; simpl this.
    + lia.
    + now rewrite cursor_set_slot.
    + destruct (decide (k' = k)) as [->|Hne].
      * rewrite cursor_set_cursor. lia.
      * now rewrite cursor_set_cursor_ne, cursor_set_slot.
    + destruct (decide (k' = k)) as [->|Hne].
      * rewrite cursor_set_cursor. lia.
      * now rewrite cursor_set_cursor_ne, cursor_set_slot.
  - intros i Hi.
    destruct (load_body_spec k e s) as [ | |late];
      [| |subst s' w'; destruct late]; simpl this;
      rewrite ?slots_set_cursor, ?slots_lookup_set_slot;
      try reflexivity;
      (case_decide as Hd; [destruct Hd as (-> & -> & _); lia|reflexivity]).
Qed.

Lemma never_rewound_load_class k e (s : Sys G) :
  never_rewound s (state_of (load_class k e s)).
Proof.
  pattern s, (load_class k e s). apply load_class_elim.
  - intros. apply never_rewound_refl.
  - intros s0 r s' _ Hb. pose proof (never_rewound_body k e s0) as H.
    now rewrite Hb in H.
  - intros s0 s1 fl _ Hb IH. pose proof (never_rewound_body k e s0) as H.
    rewrite Hb in H. eapply never_rewound_trans; eauto.
Qed.

(** Whatever a call returns, it has moved neither cursor back, has kept
    the size of both arrays, and has not written to a slot below the
    cursor it started from: a handle of a completed texture is never
    overwritten by [LoadWaterTextures]. *)
Theorem call_keeps_completed_slots (s : Sys G) :
  let s' := snd (LoadWaterTextures s) in
  forall k,
    (cursor k (this s) <= cursor k (this s'))%nat /\
    capacity k (this s') = capacity k (this s) /\
    forall i, (i < cursor k (this s))%nat ->
      slots k (this s') !! i = slots k (this s) !! i.
Proof.
  intros s'. subst s'. rewrite LoadWaterTextures_eq.
  set (e := (clock s (ticks s) + 100e-3)%Q).
  set (s0 := with_ticks (S (ticks s)) s).
  assert (H0 : never_rewound s s0) by (exact (never_rewound_refl s)).
  pose proof (never_rewound_load_class Diffuse e s0) as R1.
  destruct (load_class Diffuse e s0) as [[] s1|r1 s1]; cbn [state_of] in R1.
  2:{ exact (never_rewound_trans _ _ _ H0 R1). }
  pose proof (never_rewound_load_class Normal e s1) as R2.
  destruct (load_class Normal e s1) as [[] s2|r2 s2];
    cbn [state_of] in R2; cbn [snd].
  - assert (R3 : never_rewound s2 (with_targets s2)).
    { intros k. split; [|split]; destruct k; reflexivity || auto. }
    exact (never_rewound_trans _ _ _ H0
             (never_rewound_trans _ _ _ R1
                (never_rewound_trans _ _ _ R2 R3))).
  - exact (never_rewound_trans _ _ _ H0 (never_rewound_trans _ _ _ R1 R2)).
Qed.

(** ** Unloading twice *)

(** A second [UnloadWaterTextures] changes nothing in the object or the
    GL context: it passes the null handle to [ogl_tex_free] once per
    slot. *)
Theorem unload_twice (s : Sys G) :
  let u := UnloadWaterTextures s in
  this (UnloadWaterTextures u) = this u /\
  gl (UnloadWaterTextures u) = gl u /\
  trace (UnloadWaterTextures u)
  = trace u ++ replicate (capacity Diffuse (this s)
                          + capacity Normal (this s)) (EvFree 0).
Proof.
  intros u. subst u.
  rewrite (UnloadWaterTextures_eq (UnloadWaterTextures s)).
  rewrite (UnloadWaterTextures_eq s).
  cbn [this gl trace m_RenderWater m_WaterTexture m_NormalMap
       m_ReflectionTexture m_RefractionTexture m_ReflectionTextureSize
       m_RefractionTextureSize capacity slots].
  assert (HcD : forall fl l1 l2 a b c d e f,
            capacity Diffuse (mkWM fl l1 l2 a b c d e f) = length l1)
    by reflexivity.
  assert (HcN : forall fl l1 l2 a b c d e f,
            capacity Normal (mkWM fl l1 l2 a b c d e f) = length l2)
    by reflexivity.
  rewrite HcD, HcN, !length_replicate.
  split; [reflexivity|]. split; [reflexivity|].
  f_equal. rewrite map_app, replicate_add.
  f_equal; apply (fmap_replicate EvFree).
Qed.

(** ** The requests of one call *)

Lemma call_trace_shape (s s' : Sys G) r :
  LoadWaterTextures s = (r, s') ->
  exists t0 tl,
    trace s' = trace s ++ t0 ++ tl /\
    Forall successful_request t0 /\
    last_requests r s' tl.
Proof.
  intros Hcall.
  set (Inv := fun x : Sys G =>
         exists t0, trace x = trace s ++ t0 /\ Forall successful_request t0).
  assert (Hinit : Inv s) by (exists []; rewrite app_nil_r; auto).
  assert (Hstep : forall k e x x1, Inv x ->
            (cursor k (this x) < capacity k (this x))%nat ->
            (k = Normal -> diffuse_done x) ->
            load_body k e x = Next tt x1 -> Inv x1).
  { intros k e x x1 (t0 & Ht0 & Hall) _ _ Hb.
    pose proof (load_body_spec k e x) as Hs. rewrite Hb in Hs.
    inversion Hs as [ | | late ht g1 st g2 Hl Hht Hu Hst Hlate w' s2 Hfl ].
    destruct late; inversion Hfl. subst s2. cbn [trace].
    eexists. rewrite Ht0, <- app_assoc. split; [reflexivity|].
    apply Forall_app. split; [exact Hall|].
    repeat constructor; assumption. }
  destruct (LoadWaterTextures_rule Inv ltac:(auto) Hstep s r s' Hinit Hcall)
    as [(-> & s2 & (t0 & Ht0 & Hall) & _ & ->)
       |(k & e & sm & (t0 & Ht0 & Hall) & Hc & Hd & Hb)].
  { exists t0, []. rewrite app_nil_r. repeat split; auto. }
  pose proof (load_body_spec k e sm) as Hs. rewrite Hb in Hs.
  inversion Hs as [ht g1 Hl Hht [Hr Hs']
                  |ht g1 err g2 Hl Hht Hu Herr [Hr Hs']
                  |late ht g1 st g2 Hl Hht Hu Hst Hlate w' s2 Hfl ];
    clear Hs.
  - exists t0, [EvLoad k (cursor k (this sm)) (request_name k sm) ht;
               EvLog (request_name k sm)].
    cbn [trace]. rewrite Ht0, <- app_assoc.
    split; [reflexivity|]. split; [exact Hall|].
    split; [exact Hht|]. exists k. reflexivity.
  - exists t0, [EvLoad k (cursor k (this sm)) (request_name k sm) ht;
               EvUpload k (cursor k (this sm)) ht err].
    cbn [trace]. rewrite Ht0, <- app_assoc.
    split; [reflexivity|]. split; [exact Hall|].
    split; [exact Herr|]. exists k, ht. split; [exact Hht|].
    unfold request_name. cbn [this PATH_MAX].
    rewrite cursor_set_slot. reflexivity.
  - destruct late; [|discriminate].
    injection Hfl as <- <-. subst s2 w'.
    exists (t0 ++ [EvLoad k (cursor k (this sm)) (request_name k sm) ht;
                   EvUpload k (cursor k (this sm)) ht st]), [].
    cbn [trace]. rewrite Ht0, app_nil_r, <- app_assoc.
    split; [reflexivity|]. split; [|reflexivity].
    apply Forall_app. split; [exact Hall|].
    repeat constructor; assumption.
Qed.

(** The events of a call, whatever it returns, hold no [EvFree]. *)
Lemma call_frees_nothing (s s' : Sys G) r :
  LoadWaterTextures s = (r, s') ->
  exists t, trace s' = trace s ++ t /\ forall h, EvFree h ∉ t.
Proof.
  intros Hcall.
  destruct (call_trace_shape s s' r Hcall) as (t0 & tl & Ht & Hall & Hlast).
  exists (t0 ++ tl). split; [exact Ht|].
  rewrite Forall_forall in Hall.
  intros h Hin. apply elem_of_app in Hin as [Hin|Hin];
    [apply Hall in Hin; exact Hin|].
  destruct r; simpl in Hlast.
  - destruct Hlast as (_ & k & ->).
    apply elem_of_cons in Hin as [?|Hin]; [discriminate|].
    apply elem_of_cons in Hin as [?|Hin]; [discriminate|].
    now apply elem_of_nil in Hin.
  - destruct Hlast as (_ & k & ht & _ & ->).
    apply elem_of_cons in Hin as [?|Hin]; [discriminate|].
    apply elem_of_cons in Hin as [?|Hin]; [discriminate|].
    now apply elem_of_nil in Hin.
  - subst tl. now apply elem_of_nil in Hin.
  - subst tl. now apply elem_of_nil in Hin.
Qed.

(** A failed load is the only thing [LoadWaterTextures] writes to the
    log: a log entry among the requests of a call is the last of them,
    names the file whose load just failed, and the call returns that
    load's handle; a call that returns anything else has logged nothing.
    And no call passes a handle to [ogl_tex_free], not even the handle of
    a texture whose upload failed. *)
Theorem load_failure_is_logged_nothing_is_freed (s s' : Sys G) (r : Ret) :
  LoadWaterTextures s = (r, s') ->
  exists t, trace s' = trace s ++ t /\
    (forall h, EvFree h ∉ t) /\
    (forall f, EvLog f ∈ t ->
       exists ht k before,
         r = RetLoadFailed ht /\
         f = request_name k s' /\
         t = before ++ [EvLoad k (cursor k (this s')) f ht; EvLog f]) /\
    (forall ht, r = RetLoadFailed ht -> exists f, EvLog f ∈ t).
Proof.
  intros Hcall.
  destruct (call_trace_shape s s' r Hcall) as (t0 & tl & Ht & Hall & Hlast).
  exists (t0 ++ tl). split; [exact Ht|].
  rewrite Forall_forall in Hall.
  assert (Hnofree : forall h, EvFree h ∉ t0)
    by (intros h Hin; apply Hall in Hin; exact Hin).
  assert (Hnolog : forall f, EvLog f ∉ t0)
    by (intros f Hin; apply Hall in Hin; exact Hin).
  split; [|split].
  - intros h Hin. apply elem_of_app in Hin as [Hin|Hin];
      [now apply (Hnofree h)|].
    destruct r; simpl in Hlast.
    + destruct Hlast as (_ & k & ->).
      apply elem_of_cons in Hin as [?|Hin]; [discriminate|].
      apply elem_of_cons in Hin as [?|Hin]; [discriminate|].
      now apply elem_of_nil in Hin.
    + destruct Hlast as (_ & k & ht & _ & ->).
      apply elem_of_cons in Hin as [?|Hin]; [discriminate|].
      apply elem_of_cons in Hin as [?|Hin]; [discriminate|].
      now apply elem_of_nil in Hin.
    + subst tl. now apply elem_of_nil in Hin.
    + subst tl. now apply elem_of_nil in Hin.
  - intros f Hin. apply elem_of_app in Hin as [Hin|Hin];
      [now apply Hnolog in Hin|].
    destruct r; simpl in Hlast.
    + destruct Hlast as (_ & k & ->).
      apply elem_of_cons in Hin as [?|Hin]; [discriminate|].
      apply elem_of_cons in Hin as [Heq|Hin];
        [|now apply elem_of_nil in Hin].
      injection Heq as ->. exists ht, k, t0. auto.
    + destruct Hlast as (_ & k & ht & _ & ->).
      apply elem_of_cons in Hin as [?|Hin]; [discriminate|].
      apply elem_of_cons in Hin as [?|Hin]; [discriminate|].
      now apply elem_of_nil in Hin.
    + subst tl. now apply elem_of_nil in Hin.
    + subst tl. now apply elem_of_nil in Hin.
  - intros ht ->. simpl in Hlast. destruct Hlast as (_ & k & ->).
    exists (request_name k s'). apply elem_of_app. right.
    apply elem_of_cons. right. apply elem_of_cons. now left.
Qed.

(** ** The files of a complete load *)

Lemma requests_app t1 t2 : requests (t1 ++ t2) = requests t1 ++ requests t2.
Proof. apply omap_app. Qed.

Lemma load_class_requests k e (s : Sys G) :
  forall s1, load_class k e s = Next tt s1 ->
  exists t, trace s1 = trace s ++ t /\
    requests t
    = expected_requests (PATH_MAX s) k (cursor k (this s))
        (capacity k (this s) - cursor k (this s)).
Proof.
  pattern s, (load_class k e s). apply load_class_elim.
  - intros s0 Hc s1 [= <-]. exists []. rewrite app_nil_r.
    replace (capacity k (this s0) - cursor k (this s0))%nat with 0%nat
      by lia.
    auto.
  - intros; discriminate.
  - intros s0 sa fl Hc Hb IH s1 Hfl.
    destruct (IH s1 Hfl) as (t' & Ht' & Hr').
    pose proof (load_body_spec k e s0) as Hs. rewrite Hb in Hs.
    inversion Hs as [ | | late ht g1 st g2 Hl Hht Hu Hst Hlate w' s2 Hfl' ].
    destruct late; inversion Hfl' as [Hsa]. subst s2 w'.
    rewrite <- Hsa in Ht', Hr'. cbn [trace this PATH_MAX] in Ht', Hr'.
    rewrite capacity_set_cursor, capacity_set_slot, cursor_set_cursor
      in Hr'.
    eexists. rewrite Ht', <- app_assoc. split; [reflexivity|].
    rewrite requests_app, Hr'. cbn [requests omap app].
    replace (capacity k (this s0) - cursor k (this s0))%nat
      with (S (capacity k (this s0) - (cursor k (this s0) + 1)))%nat by lia.
    unfold expected_requests, request_name. cbn [seq map].
    rewrite !Nat.add_1_r. reflexivity.
Qed.

Lemma call_requests_of_both_classes (s s' : Sys G) :
  LoadWaterTextures s = (RetOk, s') ->
  exists t, trace s' = trace s ++ t /\
    requests t
    = expected_requests (PATH_MAX s) Diffuse (cursor Diffuse (this s))
        (capacity Diffuse (this s) - cursor Diffuse (this s))
      ++ expected_requests (PATH_MAX s) Normal (cursor Normal (this s))
           (capacity Normal (this s) - cursor Normal (this s)).
Proof.
  intros Hcall.
  rewrite LoadWaterTextures_eq in Hcall.
  set (e := (clock s (ticks s) + 100e-3)%Q) in *.
  set (s0 := with_ticks (S (ticks s)) s) in *.
  pose proof (load_class_requests Diffuse e s0) as R1.
  pose proof (load_class_frame Diffuse e s0) as F1.
  pose proof (load_class_other_cursor Diffuse Normal e s0
                ltac:(discriminate)) as O1.
  destruct (load_class Diffuse e s0) as [[] s1|r1 s1] eqn:E1.
  2:{ injection Hcall as -> ->. now apply load_class_not_ok in E1. }
  destruct (R1 s1 eq_refl) as (t1 & Ht1 & Hr1).
  cbn [state_of] in F1, O1.
  pose proof (load_class_requests Normal e s1) as R2.
  destruct (load_class Normal e s1) as [[] s2|r2 s2] eqn:E2.
  2:{ injection Hcall as -> ->. now apply load_class_not_ok in E2. }
  destruct (R2 s2 eq_refl) as (t2 & Ht2 & Hr2).
  injection Hcall as <-.
  exists (t1 ++ t2). split.
  - change (trace (with_targets s2)) with (trace s2).
    rewrite Ht2, Ht1, <- app_assoc. reflexivity.
  - rewrite requests_app, Hr1, Hr2.
    rewrite (frame_path_max _ _ F1), O1, (frame_capacity _ _ F1).
    reflexivity.
Qed.

(** A call that reaches the end of the function has asked for exactly
    the files of the indices that were left, each once and every one
    with success: the diffuse textures from the diffuse cursor up to the
    size of the array, then the normal maps from the normal cursor up. *)
Theorem complete_call_requests (s s' : Sys G) :
  LoadWaterTextures s = (RetOk, s') ->
  exists t, trace s' = trace s ++ t /\
    Forall successful_request t /\
    requests t
    = expected_requests (PATH_MAX s) Diffuse (cursor Diffuse (this s))
        (capacity Diffuse (this s) - cursor Diffuse (this s))
      ++ expected_requests (PATH_MAX s) Normal (cursor Normal (this s))
           (capacity Normal (this s) - cursor Normal (this s)).
Proof.
  intros Hcall.
  destruct (call_requests_of_both_classes s s' Hcall) as (t & Ht & Hr).
  destruct (call_trace_shape s s' RetOk Hcall) as (t0 & tl & Ht0 & Hall & Hl).
  cbn [last_requests] in Hl. subst tl. rewrite app_nil_r in Ht0.
  exists t. split; [exact Ht|]. split; [|exact Hr].
  rewrite Ht in Ht0. apply app_inv_head in Ht0. now subst t0.
Qed.

(** After [UnloadWaterTextures], in whatever state it was called, a
    complete load asks for the same files in the same order as the
    first complete load of a newly constructed manager with arrays of the
    same sizes: every diffuse texture from index 0, then every normal map
    from index 0. *)
Theorem reload_requests_like_new (s s1 s2 : Sys G) g height clk :
  LoadWaterTextures (UnloadWaterTextures s) = (RetOk, s1) ->
  LoadWaterTextures
    (fresh (capacity Diffuse (this s)) (capacity Normal (this s))
       g height (PATH_MAX s) clk) = (RetOk, s2) ->
  requests (drop (length (trace (UnloadWaterTextures s))) (trace s1))
  = requests (trace s2) /\
  requests (trace s2)
  = expected_requests (PATH_MAX s) Diffuse 0 (capacity Diffuse (this s))
    ++ expected_requests (PATH_MAX s) Normal 0 (capacity Normal (this s)).
Proof.
  intros H1 H2.
  destruct (call_requests_of_both_classes _ _ H1) as (t1 & Ht1 & Hr1).
  destruct (call_requests_of_both_classes _ _ H2) as (t2 & Ht2 & Hr2).
  rewrite Ht1, drop_app_length, Hr1.
  cbn [fresh trace app] in Ht2. rewrite Ht2, Hr2.
  rewrite UnloadWaterTextures_eq. unfold capacity.
  cbn [this PATH_MAX fresh WaterManager_ctor cursor slots
       cur_loading_water_tex cur_loading_normal_map
       m_WaterTexture m_NormalMap].
  rewrite !length_replicate, !Nat.sub_0_r. split; reflexivity.
Qed.

(** ** The progress a call reports *)

(** A call that returns for lack of time reports, as the two arguments
    of [LDR_CHECK_TIMEOUT], the number of textures loaded so far (the sum
    of the two cursors) and the total number of textures; at least one
    texture is reported, never more than the total, and the call has
    loaded at least one texture itself. *)
Theorem timeout_reports_progress (s s' : Sys G) (a b : nat) :
  reachable s ->
  LoadWaterTextures s = (RetTimeout a b, s') ->
  b = (capacity Diffuse (this s') + capacity Normal (this s'))%nat /\
  a = (cursor Diffuse (this s') + cursor Normal (this s'))%nat /\
  (1 <= a <= b)%nat /\
  (remaining (this s') < remaining (this s))%nat.
Proof.
  intros Hreach Hcall.
  pose proof (LoadWaterTextures_timeout_progress s s' a b Hcall) as Hprog.
  destruct (LoadWaterTextures_rule (fun s => pool_ok (this s))
              ltac:(auto)
              ltac:(intros k e sa sb Ha Hc Hd Hb;
                    pose proof (pool_ok_body k e sa Ha Hc Hd) as H;
                    now rewrite Hb in H)
              s _ s' (reachable_pool_ok s Hreach) Hcall)
    as [(Hr & _)|(k & e & sm & Hm & Hc & Hd & Hb)]; [discriminate|].
  pose proof (pool_ok_body k e sm Hm Hc Hd) as Hok'.
  rewrite Hb in Hok'. cbn [state_of] in Hok'.
  assert (HD : k = Diffuse -> cursor Normal (this sm) = 0%nat)
    by (intros ->; now apply (pool_order _ Hm)).
  assert (HN : k = Normal ->
               cursor Diffuse (this sm) = capacity Diffuse (this sm)).
  { intros Hk. specialize (Hd Hk). unfold diffuse_done in Hd.
    pose proof (pool_cursor _ Hm Diffuse). lia. }
  pose proof (pool_cursor _ Hok') as Hcur'.
  pose proof (load_body_spec k e sm) as Hs. rewrite Hb in Hs.
  inversion Hs as [ | | late ht g1 st g2 Hl Hht Hu Hst Hlate w' s2 Hfl ].
  destruct late; [|discriminate].
  injection Hfl as Ha Hbb Hs'. subst s2 w'. rewrite <- Hs' in *.
  cbn [this] in *. clear Hs' Hs.
  split; [now rewrite <- Hbb|].
  assert (Hsum : a = (cursor Diffuse
                        (set_cursor k (cursor k (this sm) + 1)
                           (set_slot k (cursor k (this sm)) ht (this sm)))
                      + cursor Normal
                          (set_cursor k (cursor k (this sm) + 1)
                             (set_slot k (cursor k (this sm)) ht (this sm))))%nat).
  { rewrite <- Ha. destruct k.
    - specialize (HD eq_refl). simpl in *. lia.
    - specialize (HN eq_refl). unfold completed_jobs.
      rewrite capacity_set_cursor, capacity_set_slot.
      simpl in *. lia. }
  split; [exact Hsum|]. split; [|exact Hprog].
  rewrite Hsum, <- Hbb.
  pose proof (Hcur' Diffuse) as HcD. pose proof (Hcur' Normal) as HcN.
  split; [|lia].
  destruct k.
  - rewrite cursor_set_cursor. lia.
  - rewrite (cursor_set_cursor Normal). lia.
Qed.

(** ** What the readiness flag promises *)

Lemma targets_ready_with_targets (s : Sys G) : targets_ready (with_targets s).
Proof.
  split; [apply with_targets_reflection|].
  split; [apply with_targets_refraction|].
  split; [reflexivity|]. simpl. lia.
Qed.

Lemma session_targets_ready (s : Sys G) :
  session s -> m_RenderWater (this s) = true -> targets_ready s.
Proof.
  induction 1 as [|s Hs IH]; [discriminate|].
  destruct (LoadWaterTextures s) as [r s'] eqn:Hcall. cbn [snd].
  intros Hon.
  assert (Hcase : r = RetOk \/ r <> RetOk)
    by (destruct r; auto; right; discriminate).
  destruct Hcase as [->|Hne].
  - destruct (LoadWaterTextures_ok s s' Hcall) as (s2 & -> & _).
    apply targets_ready_with_targets.
  - pose proof (LoadWaterTextures_frame s s' r Hcall Hne) as F.
    rewrite (frame_flag _ _ F) in Hon.
    destruct (IH Hon) as (H1 & H2 & H3 & H4).
    unfold targets_ready, reflection_target, refraction_target in *.
    rewrite (frame_gl _ _ F), (frame_reflection _ _ F),
      (frame_refraction _ _ F), (frame_reflection_size _ _ F),
      (frame_refraction_size _ _ F).
    auto.
Qed.

(** In a load session the readiness flag is set only when everything is
    in place: both cursors are at the size of their array, every slot of
    both arrays holds a handle, and both render targets exist in GL with
    the parameters and the (equal) sizes stored in the object. *)
Theorem ready_means_everything_loaded (s : Sys G) :
  session s ->
  m_RenderWater (this s) = true ->
  (forall k, cursor k (this s) = capacity k (this s)) /\
  (forall k i, (i < capacity k (this s))%nat ->
     exists h, slots k (this s) !! i = Some h /\ 0 < h) /\
  targets_ready s.
Proof.
  intros Hsess Hon.
  destruct (session_session_ok s Hsess) as [Hpool Hflag _ _].
  specialize (Hflag Hon).
  assert (Hcur : forall k, cursor k (this s) = capacity k (this s)).
  { intros k. pose proof (pool_cursor _ Hpool k). specialize (Hflag k). lia. }
  split; [exact Hcur|]. split; [|now apply session_targets_ready].
  intros k i Hi.
  destruct (lookup_lt_is_Some_2 (slots k (this s)) i Hi) as [h Hh].
  exists h. split; [exact Hh|].
  apply (pool_filled _ Hpool k i h); [rewrite Hcur; exact Hi|exact Hh].
Qed.

(** ** The arrays hold the completed handles *)

Lemma completed_handles_app k t1 t2 :
  completed_handles k (t1 ++ t2)
  = completed_handles k t1 ++ completed_handles k t2.
Proof. apply omap_app. Qed.

Lemma slots_hold_handles_body k e (s : Sys G) :
  slots_hold_handles s ->
  (cursor k (this s) < capacity k (this s))%nat ->
  slots_hold_handles (state_of (load_body k e s)).
Proof.
  intros Hinv Hc k'.
  assert (Hlen : (cursor k (this s) < length (slots k (this s)))%nat)
    by exact Hc.
  assert (Hgoal : forall ht status,
            take (cursor k' (set_slot k (cursor k (this s)) ht (this s)))
                 (slots k' (set_slot k (cursor k (this s)) ht (this s)))
            = completed_handles k' (trace s) /\
            take (cursor k' (set_cursor k (cursor k (this s) + 1)
                               (set_slot k (cursor k (this s)) ht (this s))))
                 (slots k' (set_cursor k (cursor k (this s) + 1)
                              (set_slot k (cursor k (this s)) ht (this s))))
            = completed_handles k' (trace s)
              ++ completed_handles k'
                   [EvUpload k (cursor k (this s)) ht (Z.abs status)]).
  { intros ht status. rewrite slots_set_cursor, !cursor_set_slot.
    destruct (decide (k' = k)) as [->|Hne].
    - rewrite slots_set_slot, cursor_set_cursor, take_insert_ge by lia.
      split; [apply Hinv|].
      rewrite Nat.add_1_r.
      rewrite (take_S_r _ _ ht) by (now apply list_lookup_insert_eq).
      rewrite take_insert_ge by lia. rewrite (Hinv k).
      simpl. rewrite decide_True by reflexivity.
      destruct (Z.leb_spec 0 (Z.abs status)); [reflexivity|lia].
    - rewrite slots_set_slot_ne, cursor_set_cursor_ne, ?cursor_set_slot
        by auto.
      split; [apply Hinv|].
      simpl. rewrite decide_False by auto. rewrite app_nil_r. apply Hinv. }
  destruct (load_body_spec k e s)
    as [ht g1 Hl Hht|ht g1 err g2 Hl Hht Hu Herr
       |late ht g1 st g2 Hl Hht Hu Hst Hlate w' s'].
  - cbn [state_of this trace]. rewrite completed_handles_app.
    simpl. rewrite app_nil_r. apply Hinv.
  - cbn [state_of this trace]. rewrite completed_handles_app.
    destruct (Hgoal ht 0) as [-> _].
    simpl. case_decide; [|now rewrite app_nil_r].
    destruct (Z.leb_spec 0 err); [lia|]. now rewrite app_nil_r.
  - assert (Hs' : take (cursor k' (this s')) (slots k' (this s'))
                  = completed_handles k' (trace s')).
    { subst s' w'. cbn [this trace]. rewrite completed_handles_app.
      destruct (Hgoal ht st) as [_ ->]. f_equal.
      rewrite Z.abs_eq by lia. simpl. case_decide; reflexivity. }
    destruct late; exact Hs'.
Qed.

Lemma session_slots_hold_handles (s : Sys G) :
  session s -> slots_hold_handles s.
Proof.
  induction 1 as [|s Hs IH].
  - intros []; reflexivity.
  - destruct (LoadWaterTextures s) as [r s'] eqn:Hcall. cbn [snd].
    destruct (LoadWaterTextures_rule slots_hold_handles
                ltac:(auto)
                ltac:(intros k e sa sb Ha Hc Hd Hb;
                      pose proof (slots_hold_handles_body k e sa Ha Hc) as H;
                      now rewrite Hb in H)
                s r s' IH Hcall)
      as [(_ & s2 & H2 & _ & ->)|(k & e & sm & Hm & Hc & Hd & Hb)].
    + intros k. specialize (H2 k). destruct k; exact H2.
    + pose proof (slots_hold_handles_body k e sm Hm Hc) as H.
      now rewrite Hb in H.
Qed.

(** In a load session, the slots below each cursor hold, in order, the
    handles of the textures of that class whose upload succeeded, and
    [UnloadWaterTextures] passes every one of those handles to
    [ogl_tex_free]. *)
Theorem completed_handles_are_kept_and_freed (s : Sys G) :
  session s ->
  forall k,
    take (cursor k (this s)) (slots k (this s))
    = completed_handles k (trace s) /\
    forall h, h ∈ completed_handles k (trace s) ->
      exists t1 t2,
        trace (UnloadWaterTextures s) = trace s ++ t1 ++ EvFree h :: t2.
Proof.
  intros Hsess k.
  pose proof (session_slots_hold_handles s Hsess k) as Hk.
  split; [exact Hk|].
  intros h Hin. rewrite <- Hk in Hin.
  assert (Hin' : h ∈ slots k (this s)).
  { rewrite <- (take_drop (cursor k (this s)) (slots k (this s))).
    apply elem_of_app. now left. }
  assert (Hall : h ∈ m_WaterTexture (this s) ++ m_NormalMap (this s)).
  { apply elem_of_app. destruct k; [left|right]; exact Hin'. }
  apply list_elem_of_split in Hall as (l1 & l2 & Hl).
  rewrite UnloadWaterTextures_eq. cbn [trace]. rewrite Hl.
  exists (map EvFree l1), (map EvFree l2).
  rewrite map_app. reflexivity.
Qed.

(** ** A texture library that does not fail *)




(** ** Distinct files *)

Lemma append_inv_head (p a b : string) :
  String.append p a = String.append p b -> a = b.
Proof.
  induction p as [|c p IH]; [auto|].
  intros H. injection H as H. auto.
Qed.

Lemma digit_inj a b :
  (a < 10)%nat -> (b < 10)%nat -> digit a = digit b -> a = b.
Proof.
  intros Ha Hb H. unfold digit in H.
  apply (f_equal nat_of_ascii) in H.
  rewrite !nat_ascii_embedding in H by lia. lia.
Qed.

Lemma two_digits_inj n m :
  (n < 100)%nat -> (m < 100)%nat -> two_digits n = two_digits m -> n = m.
Proof.
  intros Hn Hm H.
  assert (Hpair : forall a b c d : ascii,
            String a (String b EmptyString) = String c (String d EmptyString)
            -> a = c /\ b = d)
    by (intros a b c d [= -> ->]; auto).
  apply Hpair in H as [H1 H2].
  apply digit_inj in H1; [|apply Nat.Div0.div_lt_upper_bound; lia ..].
  apply digit_inj in H2; [|apply Nat.mod_upper_bound; lia ..].
  rewrite (Nat.div_mod_eq n 10), (Nat.div_mod_eq m 10). lia.
Qed.

Lemma texture_path_inj variant k k' n m :
  (n < 100)%nat -> (m < 100)%nat ->
  texture_path variant k n = texture_path variant k' m ->
  k = k' /\ n = m.
Proof.
  intros Hn Hm H. unfold texture_path in H.
  do 3 apply append_inv_head in H.
  assert (Htail : forall x y : string,
            String.append x ".dds" = String.append y ".dds" ->
            String.length x = 2%nat -> String.length y = 2%nat -> x = y).
  { intros [|a [|b [|c x]]] [|a' [|b' [|c' y]]] Hxy Hx Hy;
      try discriminate.
    injection Hxy as -> ->. reflexivity. }
  destruct k, k'; unfold category in H.
  - apply (append_inv_head "diffuse") in H.
    split; [reflexivity|]. apply (two_digits_inj n m Hn Hm).
    now apply Htail.
  - discriminate.
  - discriminate.
  - apply (append_inv_head "normal") in H.
    split; [reflexivity|]. apply (two_digits_inj n m Hn Hm).
    now apply Htail.
Qed.

Lemma request_name_texture_path k (s : Sys G) :
  (cursor k (this s) < 99)%nat ->
  (50 <= PATH_MAX s)%nat ->
  request_name k s = texture_path "default" k (cursor k (this s) + 1).
Proof.
  intros Hc Hp. unfold request_name, water_type.
  rewrite tex_fmt_texture_path by lia.
  apply snprintf_fits.
  pose proof (texture_path_length "default" k (cursor k (this s) + 1))
    as Hlen.
  simpl String.length in Hlen at 2. lia.
Qed.

(** No two slots are loaded from the same file: for cursor values below
    99 and a name buffer of at least 50 characters, the names asked for
    in two states are equal only if the class and the cursor value are
    the same, so a diffuse name is never a normal name and different
    indices of a class have different names. *)
Theorem request_names_are_distinct (k k' : TexClass) (s s' : Sys G) :
  (cursor k (this s) < 99)%nat ->
  (cursor k' (this s') < 99)%nat ->
  (50 <= PATH_MAX s)%nat ->
  (50 <= PATH_MAX s')%nat ->
  request_name k s = request_name k' s' ->
  k = k' /\ cursor k (this s) = cursor k' (this s').
Proof.
  intros Hc Hc' Hp Hp' H.
  rewrite (request_name_texture_path k s Hc Hp),
    (request_name_texture_path k' s' Hc' Hp') in H.
  apply texture_path_inj in H as [-> Hn]; [|lia|lia].
  split; [reflexivity|lia].
Qed.

(** ** The arrays in every reachable state *)

(** Whatever sequence of loads and unloads brought a manager where it is,
    each array is filled in order and without gaps: the cursor is within
    the array, every slot below it holds a handle, every slot above it is
    empty, the slot at the cursor is empty or holds the handle of a
    failed upload, and the cursor of the normal maps has not moved
    unless the diffuse textures are complete. *)
Theorem arrays_are_filled_in_order (s : Sys G) :
  reachable s ->
  forall k,
    (cursor k (this s) <= capacity k (this s))%nat /\
    (forall i h, slots k (this s) !! i = Some h ->
       ((i < cursor k (this s))%nat -> 0 < h) /\
       (i = cursor k (this s) -> 0 <= h) /\
       ((cursor k (this s) < i)%nat -> h = 0)) /\
    ((0 < cursor Normal (this s))%nat ->
     cursor Diffuse (this s) = capacity Diffuse (this s)).
Proof.
  intros Hreach k.
  destruct (reachable_pool_ok s Hreach) as [Hcur Hfill Hemp Hres Hord].
  split; [apply Hcur|]. split.
  - intros i h Hl. split; [|split].
    + intros Hi. now apply (Hfill k i h).
    + intros ->. now apply (Hres k h).
    + intros Hi. now apply (Hemp k i h).
  - intros Hn. pose proof (Hcur Diffuse) as HD.
    destruct (Nat.lt_ge_cases (cursor Diffuse (this s))
                (capacity Diffuse (this s))) as [Hlt|Hge]; [|lia].
    destruct (Hord Hlt) as [H0 _]. lia.
Qed.

(** ** Destroying a manager that is ready *)

(** When a manager that a load session has made ready is destroyed, the
    handles passed to [ogl_tex_free] are exactly the handles of the
    textures loaded, each once, diffuse first and in loading order; the
    GL context is not touched, so the two render-target textures stay
    allocated. *)
Theorem destructor_frees_loaded_handles_only (s : Sys G) :
  session s ->
  m_RenderWater (this s) = true ->
  let s' := WaterManager_dtor s in
  trace s'
  = trace s ++ map EvFree (completed_handles Diffuse (trace s)
                           ++ completed_handles Normal (trace s)) /\
  gl s' = gl s /\
  gl_textures (gl s') !! m_ReflectionTexture (this s)
  = Some (target_texture GL_NEAREST (m_ReflectionTextureSize (this s))) /\
  gl_textures (gl s') !! m_RefractionTexture (this s)
  = Some (target_texture GL_LINEAR (m_RefractionTextureSize (this s))).
Proof.
  intros Hsess Hon s'. subst s'. unfold WaterManager_dtor.
  destruct (session_session_ok s Hsess) as [Hpool Hflag _ _].
  specialize (Hflag Hon).
  pose proof (session_slots_hold_handles s Hsess) as Hh.
  destruct (session_targets_ready s Hsess Hon) as (Hr & Hf & _ & _).
  assert (Hall : forall k, slots k (this s) = completed_handles k (trace s)).
  { intros k. rewrite <- (Hh k). symmetry. apply take_ge.
    exact (Hflag k). }
  rewrite UnloadWaterTextures_eq. cbn [trace gl].
  split; [|split; [reflexivity|split; [exact Hr|exact Hf]]].
  now rewrite <- (Hall Diffuse), <- (Hall Normal).
Qed.

(** ** Calling again after a failed upload *)

(** A call begins with the iteration at the cursor of the class that is
    not complete yet; what follows that iteration in the call neither
    moves the cursors back nor writes below them. *)
Lemma call_first_iteration k (s : Sys G) :
  (cursor k (this s) < capacity k (this s))%nat ->
  (k = Normal -> diffuse_done s) ->
  match load_body k (clock s (ticks s) + 100e-3)%Q
          (with_ticks (S (ticks s)) s) with
  | Exit r s' => LoadWaterTextures s = (r, s')
  | Next _ sa =>
      never_rewound sa (snd (LoadWaterTextures s)) /\
      exists t', trace (snd (LoadWaterTextures s)) = trace sa ++ t'
  end.
Proof.
  intros Hc Hd. rewrite LoadWaterTextures_eq.
  set (e := (clock s (ticks s) + 100e-3)%Q).
  set (s0 := with_ticks (S (ticks s)) s).
  assert (Hrest : forall sa : Sys G,
    never_rewound sa
      (snd match load_class Normal e sa with
           | Next _ s2 => (RetOk, with_targets s2)
           | Exit r s' => (r, s')
           end) /\
    exists t', trace (snd match load_class Normal e sa with
                          | Next _ s2 => (RetOk, with_targets s2)
                          | Exit r s' => (r, s')
                          end) = trace sa ++ t').
  { intros sa.
    pose proof (never_rewound_load_class Normal e sa) as R.
    pose proof (load_class_frame Normal e sa) as F.
    destruct (load_class Normal e sa) as [[] s2|r2 s2];
      cbn [state_of snd] in *.
    - split; [|exact (frame_trace _ _ F)].
      eapply never_rewound_trans; [exact R|].
      intros k0. split; [|split]; destruct k0; reflexivity || auto.
    - split; [exact R|exact (frame_trace _ _ F)]. }
  destruct k.
  - rewrite (load_class_step Diffuse e s0) by exact Hc.
    destruct (load_body Diffuse e s0) as [[] sa|r sa]; [|reflexivity].
    pose proof (never_rewound_load_class Diffuse e sa) as R1.
    pose proof (load_class_frame Diffuse e sa) as F1.
    destruct (load_class Diffuse e sa) as [[] s1|r1 s1];
      cbn [state_of snd] in *.
    + destruct (Hrest s1) as [R2 (t2 & Ht2)].
      split; [eapply never_rewound_trans; eauto|].
      destruct (frame_trace _ _ F1) as (t1 & Ht1).
      exists (t1 ++ t2). now rewrite Ht2, Ht1, app_assoc.
    + split; [exact R1|exact (frame_trace _ _ F1)].
  - rewrite (load_class_done Diffuse e s0) by (now apply Hd).
    rewrite (load_class_step Normal e s0) by exact Hc.
    destruct (load_body Normal e s0) as [[] sa|r sa]; [|reflexivity].
    apply Hrest.
Qed.

(** When a call has returned the failure of an upload and the function
    is called again, the call asks again for the same file; no handle is
    passed to [ogl_tex_free], and if the load succeeds the slot holds the
    new handle: the handle of the texture whose upload failed is written
    over without having been freed. *)
Theorem retry_overwrites_unfreed_handle (s s1 s2 : Sys G) (err : Z) (r2 : Ret) :
  reachable s ->
  LoadWaterTextures s = (RetErr err, s1) ->
  LoadWaterTextures s1 = (r2, s2) ->
  exists k ht ht2 rest,
    let i := cursor k (this s1) in
    0 < ht /\
    slots k (this s1) !! i = Some ht /\
    trace s2 = trace s1 ++ EvLoad k i (request_name k s1) ht2 :: rest /\
    (forall h, EvFree h ∉ EvLoad k i (request_name k s1) ht2 :: rest) /\
    (0 < ht2 -> slots k (this s2) !! i = Some ht2).
Proof.
  intros Hreach Hcall1 Hcall2.
  (* the first call *)
  destruct (LoadWaterTextures_rule (fun s => pool_ok (this s))
              ltac:(auto)
              ltac:(intros k e sa sb Ha Hc Hd Hb;
                    pose proof (pool_ok_body k e sa Ha Hc Hd) as H;
                    now rewrite Hb in H)
              s _ s1 (reachable_pool_ok s Hreach) Hcall1)
    as [(Hr & _)|(k & e & sm & Hm & Hc & Hd & Hb)]; [discriminate|].
  pose proof (load_body_spec k e sm) as Hs. rewrite Hb in Hs.
  assert (H1 : exists ht, 0 < ht /\
            this s1 = set_slot k (cursor k (this sm)) ht (this sm)).
  { inversion Hs as [ |ht g1 err' g2 Hl Hht Hu Herr [Hr Hs1]
                     |late ht g1 st g2 Hl Hht Hu Hst Hlate w' sx Hfl ];
      [|destruct late; discriminate].
    exists ht. auto. }
  clear Hs. destruct H1 as (ht & Hht & Hthis).
  assert (Hcur1 : cursor k (this s1) = cursor k (this sm))
    by (rewrite Hthis; apply cursor_set_slot).
  assert (Hcap1 : forall k0, capacity k0 (this s1) = capacity k0 (this sm))
    by (intros k0; rewrite Hthis; apply capacity_set_slot).
  assert (Hc1 : (cursor k (this s1) < capacity k (this s1))%nat)
    by (rewrite Hcur1, Hcap1; exact Hc).
  assert (Hd1 : k = Normal -> diffuse_done s1).
  { intros Hk. specialize (Hd Hk). unfold diffuse_done in *.
    rewrite Hthis, cursor_set_slot, capacity_set_slot. exact Hd. }
  assert (Hslot1 : slots k (this s1) !! cursor k (this s1) = Some ht).
  { rewrite Hcur1, Hthis, slots_lookup_set_slot.
    now rewrite decide_True by auto. }
  (* the second call *)
  destruct (call_frees_nothing s1 s2 r2 Hcall2) as (t & Ht & Hnofree).
  pose proof (call_first_iteration k s1 Hc1 Hd1) as Hfirst.
  set (e1 := (clock s1 (ticks s1) + 100e-3)%Q) in *.
  set (s1' := with_ticks (S (ticks s1)) s1) in *.
  pose proof (load_body_spec k e1 s1') as Hs.
  assert (Hname : request_name k s1' = request_name k s1) by reflexivity.
  assert (Hgoal : exists ht2 rest,
            trace s2
            = trace s1 ++ EvLoad k (cursor k (this s1)) (request_name k s1) ht2
                          :: rest /\
            (0 < ht2 ->
             slots k (this s2) !! cursor k (this s1) = Some ht2)).
  { destruct Hs as [h2 g1 Hl Hh2|h2 g1 err2 g2 Hl Hh2 Hu Herr2
                   |late h2 g1 st g2 Hl Hh2 Hu Hst Hlate w' sa].
    - rewrite Hcall2 in Hfirst. injection Hfirst as _ ->.
      eexists h2, _. cbn [trace this]. split; [reflexivity|]. lia.
    - rewrite Hcall2 in Hfirst. injection Hfirst as _ ->.
      eexists h2, _. cbn [trace this]. split; [reflexivity|].
      intros _. rewrite slots_lookup_set_slot.
      now rewrite decide_True by auto.
    - assert (Hsa : slots k (this sa) !! cursor k (this s1) = Some h2 /\
              (cursor k (this s1) < cursor k (this sa))%nat).
      { subst sa w'. cbn [this].
        rewrite slots_set_cursor, slots_lookup_set_slot, cursor_set_cursor.
        rewrite decide_True by auto. split; [reflexivity|].
        change (cursor k (this s1')) with (cursor k (this s1)). lia. }
      destruct Hsa as [Hsa Hlt].
      destruct late.
      + rewrite Hcall2 in Hfirst. injection Hfirst as _ ->.
        eexists h2, _. split; [reflexivity|]. intros _. exact Hsa.
      + rewrite Hcall2 in Hfirst. cbn [snd] in Hfirst.
        destruct Hfirst as [R (t' & Ht')].
        eexists h2, _. split.
        * rewrite Ht'. subst sa. cbn [trace].
          rewrite <- app_assoc. reflexivity.
        * intros _. destruct (R k) as (_ & _ & Hkeep).
          rewrite Hkeep by exact Hlt. exact Hsa. }
  destruct Hgoal as (ht2 & rest & Htr & Hnew).
  exists k, ht, ht2, rest. cbv zeta.
  split; [exact Hht|]. split; [exact Hslot1|]. split; [exact Htr|].
  split; [|exact Hnew].
  intros h Hin. apply (Hnofree h).
  rewrite Ht in Htr. apply app_inv_head in Htr. now rewrite Htr.
Qed.

(** ** Destroying a manager that has loaded nothing *)

(** A manager destroyed right after its construction is left as the
    constructor built it, whatever the sizes of its arrays; the
    destructor passes the null handle to [ogl_tex_free] once for every
    slot and touches nothing in the GL context. *)
Theorem destructor_of_new_manager n_tex n_norm (g : G) height path_max clk :
  let s := fresh n_tex n_norm g height path_max clk in
  this (WaterManager_dtor s) = WaterManager_ctor n_tex n_norm /\
  gl (WaterManager_dtor s) = gl s /\
  trace (WaterManager_dtor s) = replicate (n_tex + n_norm) (EvFree 0).
Proof.
  intros s. subst s. unfold WaterManager_dtor.
  rewrite UnloadWaterTextures_eq. unfold capacity.
  cbn [this gl trace fresh WaterManager_ctor slots m_RenderWater
       m_WaterTexture m_NormalMap m_ReflectionTexture m_RefractionTexture
       m_ReflectionTextureSize m_RefractionTextureSize app].
  rewrite !length_replicate.
  split; [reflexivity|]. split; [reflexivity|].
  rewrite map_app, replicate_add.
  f_equal; apply (fmap_replicate EvFree).
Qed.

End LoaderFacts.

(** * The theorems on the example runs *)

Lemma example_start_loads :
  LoadWaterTextures example_start = (RetOk, example_loaded).
Proof. vm_compute. reflexivity. Defined.

(** C1: after a complete load and an unload the flag is still set and the
    render-target names are still stored, so the object is not the one
    the constructor builds. *)
Lemma unload_is_not_like_new :
  reachable example_loaded /\
  fst (LoadWaterTextures example_start) = RetOk /\
  ~ unloaded_like_new example_loaded (UnloadWaterTextures example_loaded).
Proof.
  split; [apply reachable_load, reachable_fresh|].
  split; [vm_compute; reflexivity|].
  intros [H _]. apply (f_equal m_RenderWater) in H.
  vm_compute in H. discriminate.
Qed.









(** C6: with a display of height 0 the call loads the textures, creates
    two render-target textures and returns 0. *)
Lemma zero_height_is_accepted :
  g_Renderer_Height example_zero_height <= 0 /\
  ~ height_rejected example_zero_height.
Proof.
  split; [vm_compute; discriminate|].
  intros [H _]. apply H. vm_compute. reflexivity.
Qed.

Lemma nonpositive_height_is_not_rejected_witness :
  g_Renderer_Height example_zero_height <= 0 /\
  fst (LoadWaterTextures example_zero_height) = RetOk /\
  m_RenderWater (this (snd (LoadWaterTextures example_zero_height))) = true /\
  gl_generated (gl (snd (LoadWaterTextures example_zero_height)))
  = gl_generated (gl example_zero_height) + 2.
Proof.
  assert (Hh : g_Renderer_Height example_zero_height <= 0)
    by (vm_compute; discriminate).
  assert (Hok : fst (LoadWaterTextures example_zero_height) = RetOk)
    by (vm_compute; reflexivity).
  pose proof (proj2 (nonpositive_height_is_not_rejected
                       example_zero_height Hh) Hok) as (_ & H1 & H2 & _).
  split; [exact Hh|]. split; [exact Hok|]. split; [exact H1|exact H2].
Defined.

(** C7: the failed load of index 0 is followed by a second request for
    index 0. *)
Lemma retry_repeats_an_index :
  session (calls 2 example_retry) /\
  ~ strictly_ascending_requests (trace (calls 2 example_retry)).
Proof.
  split.
  - cbn [calls]. apply session_load, session_load, session_fresh.
  - intros H.
    assert (H0 : (0 < 0)%nat); [|lia].
    apply (H [] Diffuse 0%nat
             "art/textures/animated/water/default/diffuse01.dds"%string (-1)
             [EvLog "art/textures/animated/water/default/diffuse01.dds"]
             0%nat
             "art/textures/animated/water/default/diffuse01.dds"%string 11
             [EvUpload Diffuse 0 11 0;
              EvLoad Normal 0
                "art/textures/animated/water/default/normal01.dds" 12;
              EvUpload Normal 0 12 0]).
    vm_compute. reflexivity.
Qed.

Lemma requests_follow_cursors_witness :
  session (calls 2 example_retry) /\
  (forall pre k i f h post,
     trace (calls 2 example_retry) = pre ++ EvLoad k i f h :: post ->
     completed k pre = seq 0 i).
Proof.
  assert (Hs : session (calls 2 example_retry))
    by (cbn [calls]; apply session_load, session_load, session_fresh).
  pose proof (requests_follow_cursors (calls 2 example_retry) Hs)
    as (_ & _ & H3 & _).
  split; [exact Hs|exact H3].
Defined.

Lemma resuming_equals_uninterrupted_load_witness :
  LoadWaterTextures (with_clock never_late example_sliced)
  = (RetOk, example_loaded) /\
  exists n, (n <= 3)%nat /\
    fst (LoadWaterTextures (calls n example_sliced)) = RetOk /\
    m_WaterTexture (this (snd (LoadWaterTextures (calls n example_sliced))))
    = m_WaterTexture (this example_loaded).
Proof.
  assert (Hu : LoadWaterTextures (with_clock never_late example_sliced)
               = (RetOk, example_loaded)) by (vm_compute; reflexivity).
  destruct (resuming_equals_uninterrupted_load example_sliced
              example_loaded Hu) as (n & Hn & _ & Hok & Hd & _).
  split; [exact Hu|]. exists n. split; [exact Hn|]. split; assumption.
Defined.

Lemma request_name_format_witness :
  (cursor Diffuse (this example_start)
   < capacity Diffuse (this example_start))%nat /\
  (cursor Diffuse (this example_start) < 99)%nat /\
  (50 <= PATH_MAX example_start)%nat /\
  request_name Diffuse example_start
  = "art/textures/animated/water/default/diffuse01.dds"%string.
Proof.
  assert (H1 : (cursor Diffuse (this example_start)
                < capacity Diffuse (this example_start))%nat)
    by (vm_compute; lia).
  assert (H2 : (cursor Diffuse (this example_start) < 99)%nat)
    by (vm_compute; lia).
  assert (H3 : (50 <= PATH_MAX example_start)%nat) by (vm_compute; lia).
  pose proof (request_name_format Diffuse example_start 0%Q H1 H2 H3)
    as (_ & H & _).
  split; [exact H1|]. split; [exact H2|]. split; [exact H3|].
  rewrite H. reflexivity.
Defined.

Lemma upload_failure_leaves_handle_in_slot_witness :
  reachable example_upload_fails /\
  LoadWaterTextures example_upload_fails
  = (RetErr (-3), snd (LoadWaterTextures example_upload_fails)) /\
  exists k ht,
    0 < ht /\
    slots k (this (snd (LoadWaterTextures example_upload_fails)))
    !! cursor k (this (snd (LoadWaterTextures example_upload_fails)))
    = Some ht.
Proof.
  assert (Hr : reachable example_upload_fails) by apply reachable_fresh.
  assert (Hc : LoadWaterTextures example_upload_fails
               = (RetErr (-3), snd (LoadWaterTextures example_upload_fails)))
    by (vm_compute; reflexivity).
  destruct (upload_failure_leaves_handle_in_slot example_upload_fails _ _
              Hr Hc) as (k & ht & _ & _ & _ & Hht & _ & Hslot & _).
  split; [exact Hr|]. split; [exact Hc|]. exists k, ht. split; assumption.
Defined.

(** ** The further properties on the example runs *)

Lemma example_third_fails_call :
  LoadWaterTextures example_third_fails
  = (RetLoadFailed (-5), snd (LoadWaterTextures example_third_fails)).
Proof. vm_compute. reflexivity. Defined.

Lemma example_sliced_call :
  LoadWaterTextures example_sliced
  = (RetTimeout 1 3, snd (LoadWaterTextures example_sliced)).
Proof. vm_compute. reflexivity. Defined.

Lemma example_loaded_session : session example_loaded.
Proof. apply session_load, session_fresh. Defined.

Lemma example_null_handle_call :
  LoadWaterTextures example_null_handle
  = (RetLoadFailed 0, snd (LoadWaterTextures example_null_handle)).
Proof. vm_compute. reflexivity. Defined.

Lemma unfinished_call_leaves_targets_alone_witness :
  LoadWaterTextures example_null_handle
  = (RetLoadFailed 0, snd (LoadWaterTextures example_null_handle)) /\
  return_value (RetLoadFailed 0) = Some 0 /\
  gl (snd (LoadWaterTextures example_null_handle)) = gl example_null_handle /\
  m_RenderWater (this (snd (LoadWaterTextures example_null_handle)))
  = m_RenderWater (this example_null_handle).
Proof.
  pose proof (unfinished_call_leaves_targets_alone example_null_handle _ _
                example_null_handle_call) as (H1 & _ & _).
  destruct (H1 ltac:(discriminate)) as (Hgl & Hfl & _).
  split; [exact example_null_handle_call|]. split; [reflexivity|].
  split; [exact Hgl|exact Hfl].
Defined.

Lemma load_failure_is_logged_nothing_is_freed_witness :
  LoadWaterTextures example_third_fails
  = (RetLoadFailed (-5), snd (LoadWaterTextures example_third_fails)) /\
  exists t,
    trace (snd (LoadWaterTextures example_third_fails))
    = trace example_third_fails ++ t /\
    (forall h, EvFree h ∉ t) /\
    exists f, EvLog f ∈ t.
Proof.
  split; [exact example_third_fails_call|].
  destruct (load_failure_is_logged_nothing_is_freed example_third_fails _ _
              example_third_fails_call) as (t & Ht & Hfree & _ & Hlog).
  exists t. split; [exact Ht|]. split; [exact Hfree|].
  exact (Hlog (-5) eq_refl).
Defined.

Lemma complete_call_requests_witness :
  LoadWaterTextures example_start = (RetOk, example_loaded) /\
  exists t, trace example_loaded = trace example_start ++ t /\
    Forall successful_request t /\
    requests t
    = [(Diffuse, 0%nat,
        "art/textures/animated/water/default/diffuse01.dds"%string);
       (Diffuse, 1%nat,
        "art/textures/animated/water/default/diffuse02.dds"%string);
       (Normal, 0%nat,
        "art/textures/animated/water/default/normal01.dds"%string)].
Proof.
  split; [exact example_start_loads|].
  destruct (complete_call_requests example_start example_loaded
              example_start_loads) as (t & Ht & Hall & Hr).
  exists t. split; [exact Ht|]. split; [exact Hall|].
  rewrite Hr. vm_compute. reflexivity.
Defined.

Lemma reload_requests_like_new_witness :
  let s := snd (LoadWaterTextures example_counting) in
  let s1 := snd (LoadWaterTextures (UnloadWaterTextures s)) in
  let s2 := snd (LoadWaterTextures (fresh 2 1 7%nat 480 256 never_late)) in
  LoadWaterTextures (UnloadWaterTextures s) = (RetOk, s1) /\
  LoadWaterTextures (fresh 2 1 7%nat 480 256 never_late) = (RetOk, s2) /\
  requests (drop (length (trace (UnloadWaterTextures s))) (trace s1))
  = requests (trace s2).
Proof.
  intros s s1 s2.
  assert (H1 : LoadWaterTextures (UnloadWaterTextures s) = (RetOk, s1))
    by (vm_compute; reflexivity).
  assert (H2 : LoadWaterTextures
                 (fresh (capacity Diffuse (this s)) (capacity Normal (this s))
                    7%nat 480 (PATH_MAX s) never_late) = (RetOk, s2))
    by (vm_compute; reflexivity).
  split; [exact H1|]. split; [exact H2|].
  exact (proj1 (reload_requests_like_new s s1 s2 7%nat 480 never_late H1 H2)).
Defined.

Lemma timeout_reports_progress_witness :
  reachable example_sliced /\
  LoadWaterTextures example_sliced
  = (RetTimeout 1 3, snd (LoadWaterTextures example_sliced)) /\
  (remaining (this (snd (LoadWaterTextures example_sliced)))
   < remaining (this example_sliced))%nat.
Proof.
  assert (Hr : reachable example_sliced) by apply reachable_fresh.
  split; [exact Hr|]. split; [exact example_sliced_call|].
  exact (proj2 (proj2 (proj2 (timeout_reports_progress example_sliced _ 1 3
                                Hr example_sliced_call)))).
Defined.

Lemma ready_means_everything_loaded_witness :
  session example_loaded /\
  m_RenderWater (this example_loaded) = true /\
  (forall k, cursor k (this example_loaded)
             = capacity k (this example_loaded)) /\
  targets_ready example_loaded.
Proof.
  assert (Hon : m_RenderWater (this example_loaded) = true) by reflexivity.
  destruct (ready_means_everything_loaded example_loaded
              example_loaded_session Hon) as (H1 & _ & H3).
  split; [exact example_loaded_session|]. split; [exact Hon|].
  split; [exact H1|exact H3].
Defined.

Lemma completed_handles_are_kept_and_freed_witness :
  session example_loaded /\
  forall k,
    take (cursor k (this example_loaded)) (slots k (this example_loaded))
    = completed_handles k (trace example_loaded).
Proof.
  split; [exact example_loaded_session|].
  intros k.
  exact (proj1 (completed_handles_are_kept_and_freed example_loaded
                  example_loaded_session k)).
Defined.


Lemma request_names_are_distinct_witness :
  (cursor Diffuse (this example_start) < 99)%nat /\
  (cursor Diffuse (this example_sliced) < 99)%nat /\
  (50 <= PATH_MAX example_start)%nat /\
  (50 <= PATH_MAX example_sliced)%nat /\
  request_name Diffuse example_start = request_name Diffuse example_sliced /\
  cursor Diffuse (this example_start) = cursor Diffuse (this example_sliced).
Proof.
  assert (H1 : (cursor Diffuse (this example_start) < 99)%nat)
    by (simpl; lia).
  assert (H2 : (cursor Diffuse (this example_sliced) < 99)%nat)
    by (simpl; lia).
  assert (H3 : (50 <= PATH_MAX example_start)%nat) by (simpl; lia).
  assert (H4 : (50 <= PATH_MAX example_sliced)%nat) by (simpl; lia).
  assert (H5 : request_name Diffuse example_start
               = request_name Diffuse example_sliced) by reflexivity.
  repeat (split; [assumption|]).
  exact (proj2 (request_names_are_distinct Diffuse Diffuse example_start
                  example_sliced H1 H2 H3 H4 H5)).
Defined.

Lemma arrays_are_filled_in_order_witness :
  reachable example_loaded /\
  forall k, (cursor k (this example_loaded)
             <= capacity k (this example_loaded))%nat.
Proof.
  assert (Hr : reachable example_loaded)
    by apply reachable_load, reachable_fresh.
  split; [exact Hr|]. intros k.
  exact (proj1 (arrays_are_filled_in_order example_loaded Hr k)).
Defined.

Lemma destructor_frees_loaded_handles_only_witness :
  session example_loaded /\
  m_RenderWater (this example_loaded) = true /\
  trace (WaterManager_dtor example_loaded)
  = trace example_loaded ++ [EvFree 11; EvFree 12; EvFree 13] /\
  gl (WaterManager_dtor example_loaded) = gl example_loaded.
Proof.
  assert (Hon : m_RenderWater (this example_loaded) = true) by reflexivity.
  destruct (destructor_frees_loaded_handles_only example_loaded
              example_loaded_session Hon) as (H1 & H2 & _).
  split; [exact example_loaded_session|]. split; [exact Hon|].
  split; [|exact H2].
  rewrite H1. vm_compute. reflexivity.
Defined.

Lemma retry_overwrites_unfreed_handle_witness :
  let s1 := snd (LoadWaterTextures example_upload_retry) in
  let s2 := snd (LoadWaterTextures s1) in
  reachable example_upload_retry /\
  LoadWaterTextures example_upload_retry = (RetErr (-3), s1) /\
  LoadWaterTextures s1 = (RetOk, s2) /\
  exists k ht ht2 rest,
    0 < ht /\
    slots k (this s1) !! cursor k (this s1) = Some ht /\
    trace s2
    = trace s1 ++ EvLoad k (cursor k (this s1)) (request_name k s1) ht2
                  :: rest /\
    (forall h,
       EvFree h ∉ EvLoad k (cursor k (this s1)) (request_name k s1) ht2
                  :: rest) /\
    (0 < ht2 -> slots k (this s2) !! cursor k (this s1) = Some ht2).
Proof.
  intros s1 s2.
  assert (Hr : reachable example_upload_retry) by apply reachable_fresh.
  assert (H1 : LoadWaterTextures example_upload_retry = (RetErr (-3), s1))
    by (vm_compute; reflexivity).
  assert (H2 : LoadWaterTextures s1 = (RetOk, s2))
    by (vm_compute; reflexivity).
  split; [exact Hr|]. split; [exact H1|]. split; [exact H2|].
  exact (retry_overwrites_unfreed_handle example_upload_retry s1 s2 (-3)
           RetOk Hr H1 H2).
Defined.
